(** * Measurement pipeline of [main_window.py]: a shallow embedding

    The development follows the four stages of the pipeline and the leaf
    utility they share:

    - [PointOrdering]          [sort_grid_points]
    - [MarkerLocator]          [apply_nms_manual], the NMS distance of [tm_task]
    - [CenterExtractor]        the contour filter and the deduplication of [ce_task]
    - [CoordinateMapper]       [run_coordinate_transformation] and [ct_task]
    - [ControlPointPicker]     the control-point list of [handle_point_clicked]
    - [ResultStore]            the stored results between the stages
    - [CorrespondenceTracker]  the matching loop of [plot_task]

    Conventions.  Pixel coordinates are integers ([Z]), as the centres that
    [ce_task] hands to [sort_grid_points] are; scores, moments and real-world
    coordinates are exact rationals ([Q]) standing for the floating-point
    numbers of the program, so every comparison is the exact one and a
    Euclidean distance is compared through its square.  [np.argsort] and
    [list.sort] are modelled by one stable insertion sort: elements with
    equal keys keep their original order.  The routines of OpenCV whose
    results the program only consumes ([cv2.matchTemplate],
    [cv2.findContours], [cv2.getAffineTransform]) appear as inputs or as
    section variables. *)

From Stdlib Require Import List ZArith QArith Lia Lqa Bool Arith Permutation Sorted.
From Equations Require Import Equations.
Import ListNotations.
Local Open Scope Z_scope.

(** ** Stable sorting *)

Section StableSort.
Context {A : Type}.
Variable leb : A -> A -> bool.

(** [insert a l] puts [a] in front of the first element it is below or
    equal to, hence in front of its equals. *)
Fixpoint insert (a : A) (l : list A) : list A :=
  match l with
  | [] => [a]
  | b :: l' => if leb a b then a :: l else b :: insert a l'
  end.

Fixpoint isort (l : list A) : list A :=
  match l with
  | [] => []
  | a :: l' => insert a (isort l')
  end.
End StableSort.

Definition le_of {A : Type} (leb : A -> A -> bool) (a b : A) : Prop :=
  leb a b = true.

(** Sorting by an integer key, ascending: [np.argsort] on a key column. *)
Definition sort_by_key {A : Type} (key : A -> Z) : list A -> list A :=
  isort (fun a b => (key a <=? key b)%Z).

Definition key_le {A : Type} (key : A -> Z) (a b : A) : Prop := key a <= key b.

(** ** PointOrdering *)

Module PointOrdering.

(** One row [[x, y]] of the [(n, 2)] array of pixel centres. *)
Definition point : Type := Z * Z.
Definition px (p : point) : Z := fst p.
Definition py (p : point) : Z := snd p.

(** [points[i]] and [points[indices]]. *)
Definition at_index (points : list point) (i : nat) : point :=
  nth i points (0, 0).
Definition take (points : list point) (indices : list nat) : list point :=
  map (at_index points) indices.

(** [np.argsort(keys)]: the indices [0 .. n-1] in ascending key order. *)
Definition argsort (keys : list Z) : list nat :=
  sort_by_key (fun i => nth i keys 0) (seq 0 (length keys)).

(** State of the row-grouping loop. *)
Record cluster_state : Type := mk_cluster_state {
  row_clusters_indices : list (list nat);
  current_cluster : list nat;
  last_y : Z
}.

(** One iteration [i] of the [for i in range(1, len(sorted_y_points))] loop. *)
Definition cluster_step (row_tolerance : Z)
    (sorted_y_indices : list nat) (sorted_y_points : list point)
    (st : cluster_state) (i : nat) : cluster_state :=
  let current_y := py (at_index sorted_y_points i) in
  if Z.abs (current_y - last_y st) <? row_tolerance then
    mk_cluster_state (row_clusters_indices st)
                     (current_cluster st ++ [nth i sorted_y_indices 0%nat])
                     (last_y st)
  else
    mk_cluster_state (row_clusters_indices st ++ [current_cluster st])
                     [nth i sorted_y_indices 0%nat]
                     current_y.

(** The clusters of indices before they are ordered by mean y. *)
Definition row_clusters (row_tolerance : Z) (points : list point)
  : list (list nat) :=
  let sorted_y_indices := argsort (map py points) in
  let sorted_y_points := take points sorted_y_indices in
  match sorted_y_points with
  | [] => []
  | _ =>
    let st0 := mk_cluster_state [] [nth 0 sorted_y_indices 0%nat]
                                (py (at_index sorted_y_points 0)) in
    let st := fold_left (cluster_step row_tolerance sorted_y_indices sorted_y_points)
                        (seq 1 (length sorted_y_points - 1)) st0 in
    row_clusters_indices st ++ [current_cluster st]
  end.

(** [np.mean(points[indices, 1]) if indices else 0]. *)
Definition mean_y (points : list point) (indices : list nat) : Q :=
  match indices with
  | [] => 0%Q
  | _ => Qmake (fold_right Z.add 0 (map py (take points indices)))
               (Pos.of_nat (length indices))
  end.

(** [row_clusters_indices.sort(key=...)]: stable, ascending in the key. *)
Definition sort_clusters (points : list point) (clusters : list (list nat))
  : list (list nat) :=
  isort (fun c1 c2 => Qle_bool (mean_y points c1) (mean_y points c2)) clusters.

(** The body of the last loop for one row. *)
Definition sort_row (points : list point) (row_indices : list nat) : list point :=
  match row_indices with
  | [] => []
  | _ =>
    let row_points_subset := take points row_indices in
    let sorted_x_in_row_indices := argsort (map px row_points_subset) in
    let original_indices_sorted_by_x :=
      map (fun k => nth k row_indices 0%nat) sorted_x_in_row_indices in
    take points original_indices_sorted_by_x
  end.

Definition sort_grid_points (points : list point) (row_tolerance : Z)
  : list point :=
  match points with
  | [] => points
  | _ =>
    flat_map (sort_row points)
             (sort_clusters points (row_clusters row_tolerance points))
  end.

(** The default [row_tolerance=50]. *)
Definition default_row_tolerance : Z := 50.

(** *** The ordering on values

    The program works on indices into [points]; the same computation on the
    points themselves is stated here, generically in the element type so
    that it applies to indices (keyed through [points]) and to points. *)

Section Rows.
Context {A : Type}.
Variable ky : A -> Z.
Variable r : Z.

(** The grouping loop on the y-sorted elements [l], with the current
    cluster [cur] and its reference ordinate [last]. *)
Fixpoint rows_from (last : Z) (cur : list A) (l : list A) : list (list A) :=
  match l with
  | [] => [cur]
  | p :: l' =>
    if Z.abs (ky p - last) <? r then rows_from last (cur ++ [p]) l'
    else cur :: rows_from (ky p) [p] l'
  end.

Definition rows (l : list A) : list (list A) :=
  match l with
  | [] => []
  | p :: l' => rows_from (ky p) [p] l'
  end.

(** Clusters as the loop leaves them: a non-empty block whose later
    members are within [r] of the block's first member, and whose
    successor starts at least [r] away from that first member. *)
Inductive row_chain : list (list A) -> Prop :=
| row_chain_nil : row_chain []
| row_chain_one a t :
    Forall (fun p => Z.abs (ky p - ky a) < r) t ->
    row_chain [a :: t]
| row_chain_cons a t a' t' Bs :
    Forall (fun p => Z.abs (ky p - ky a) < r) t ->
    r <= Z.abs (ky a' - ky a) ->
    row_chain ((a' :: t') :: Bs) ->
    row_chain ((a :: t) :: (a' :: t') :: Bs).

End Rows.

(** The sum of the ordinates of a block of points. *)
Definition sum_y (B : list point) : Z := fold_right Z.add 0 (map py B).

(** The mean ordinate of a block of points, as the sort key uses it. *)
Definition mean_of (B : list point) : Q :=
  match B with
  | [] => 0%Q
  | _ => Qmake (fold_right Z.add 0 (map py B)) (Pos.of_nat (length B))
  end.

Definition mean_leb (B1 B2 : list point) : bool :=
  Qle_bool (mean_of B1) (mean_of B2).

(** [sort_grid_points] on the points themselves: sort by y, group into
    rows, order the rows by mean y, order each row by x, concatenate. *)
Definition order_points (r : Z) (points : list point) : list point :=
  flat_map (sort_by_key px)
           (isort mean_leb (rows py r (sort_by_key py points))).

(** The clusters of the program as blocks of points. *)
Definition row_clusters_points (row_tolerance : Z) (points : list point)
  : list (list point) :=
  map (take points) (row_clusters row_tolerance points).



(** The grouping as the specification words it: a point joins the current
    cluster while its y-gap to the immediately previous point is below the
    tolerance, otherwise a new cluster starts. *)
Fixpoint gap_rows_from (r : Z) (prev : Z) (cur : list point) (l : list point)
  : list (list point) :=
  match l with
  | [] => [cur]
  | p :: l' =>
    if Z.abs (py p - prev) <? r then gap_rows_from r (py p) (cur ++ [p]) l'
    else cur :: gap_rows_from r (py p) [p] l'
  end.

Definition gap_rows (r : Z) (l : list point) : list (list point) :=
  match l with
  | [] => []
  | p :: l' => gap_rows_from r (py p) [p] l'
  end.


(** Every element of a block is below every element of the later blocks. *)
Fixpoint blocks_ordered {A : Type} (ky : A -> Z) (Bs : list (list A)) : Prop :=
  match Bs with
  | [] => True
  | B :: Bs' =>
    (forall a b, In a B -> In b (concat Bs') -> ky a <= ky b) /\
    blocks_ordered ky Bs'
  end.

End PointOrdering.

(** ** MarkerLocator *)

Module MarkerLocator.

(** A match candidate [(x, y, score)]: the column and row of a correlation
    peak and its score. *)
Definition candidate : Type := Z * Z * Q.
Definition cand_x (c : candidate) : Z := fst (fst c).
Definition cand_y (c : candidate) : Z := snd (fst c).
Definition cand_score (c : candidate) : Q := snd c.
Definition position (c : candidate) : Z * Z := (cand_x c, cand_y c).

(** The positions [0 .. n-1] of a row or column. *)
Definition indices (n : nat) : list Z := map Z.of_nat (seq 0 n).

(** [np.where(res >= threshold)] zipped with the scores: the score surface
    [res] (a list of rows) is scanned row by row, each row left to right. *)
Definition row_candidates (threshold : Q) (y : Z) (row : list Q)
  : list candidate :=
  filter (fun c => Qle_bool threshold (cand_score c))
         (map (fun xs => (fst xs, y, snd xs)) (combine (indices (length row)) row)).

Definition points_scores (res : list (list Q)) (threshold : Q)
  : list candidate :=
  flat_map (fun yr => row_candidates threshold (fst yr) (snd yr))
           (combine (indices (length res)) res).

(** [points_scores.sort(key=lambda x: x[2], reverse=True)]: descending in
    the score, candidates of equal score keep their order. *)
Definition score_geb (a b : candidate) : bool :=
  Qle_bool (cand_score b) (cand_score a).

Definition sort_by_score (cs : list candidate) : list candidate :=
  isort score_geb cs.

(** The test of the inner loop: a candidate stays when it is further than
    [nms_distance] from the best one along x or along y. *)
Definition survives (nms_distance : Z) (best c : candidate) : bool :=
  (Z.abs (cand_x c - cand_x best) >? nms_distance)
  || (Z.abs (cand_y c - cand_y best) >? nms_distance).

(** The [while points_scores:] loop. *)
Equations? nms_loop (nms_distance : Z) (points_scores : list candidate)
  : list (Z * Z) by wf (length points_scores) lt :=
  nms_loop nms_distance [] := [];
  nms_loop nms_distance (best :: rest) :=
    position best
    :: nms_loop nms_distance (filter (survives nms_distance best) rest).
Proof.
  apply Nat.lt_succ_r, filter_length_le.
Qed.

(** Sorting and suppression on a list of candidates. *)
Definition suppress (nms_distance : Z) (cs : list candidate) : list (Z * Z) :=
  nms_loop nms_distance (sort_by_score cs).

Definition apply_nms_manual (res : list (list Q)) (threshold : Q)
    (nms_distance template_w template_h : Z) : list (Z * Z) :=
  match points_scores res threshold with
  | [] => []
  | cs => suppress nms_distance cs
  end.

(** [tm_task]: [nms_distance = min(w, h) // 2], then the suppression on the
    score surface returned by the template correlation. *)
Definition tm_nms_distance (w h : Z) : Z := Z.min w h / 2.

Definition tm_final_points (res : list (list Q)) (tm_threshold : Q) (w h : Z)
  : list (Z * Z) :=
  apply_nms_manual res tm_threshold (tm_nms_distance w h) w h.

(** Chebyshev separation of two kept positions. *)
Definition separated (nms_distance : Z) (p q : Z * Z) : Prop :=
  Z.max (Z.abs (fst p - fst q)) (Z.abs (snd p - snd q)) > nms_distance.

(** *** The suppression as the specification words it

    Repeatedly take the highest-scoring remaining candidate (the earliest
    found among equal scores) and remove every remaining candidate within
    [nms_distance] of it in both axes. *)

Definition within (nms_distance : Z) (best c : candidate) : bool :=
  (Z.abs (cand_x c - cand_x best) <=? nms_distance)
  && (Z.abs (cand_y c - cand_y best) <=? nms_distance).

(** The best candidate of [c :: cs] and the others, in their order. *)
Fixpoint take_best (c : candidate) (cs : list candidate)
  : candidate * list candidate :=
  match cs with
  | [] => (c, [])
  | c' :: cs' =>
    let (b, others) := take_best c' cs' in
    if Qle_bool (cand_score b) (cand_score c) then (c, cs)
    else (b, c :: others)
  end.

Equations? greedy_suppression (nms_distance : Z) (remaining : list candidate)
  : list (Z * Z) by wf (length remaining) lt :=
  greedy_suppression nms_distance [] := [];
  greedy_suppression nms_distance (c :: cs) :=
    position (fst (take_best c cs))
    :: greedy_suppression nms_distance
         (filter (fun q => negb (within nms_distance (fst (take_best c cs)) q))
                 (snd (take_best c cs))).
Proof.
  clear greedy_suppression.
  assert (E : length (snd (take_best c cs)) = length cs).
  { revert c. induction cs as [|c' cs IH]; intros c; simpl; [reflexivity|].
    specialize (IH c'). destruct (take_best c' cs) as [b others].
    destruct (Qle_bool (cand_score b) (cand_score c)); simpl in *; lia. }
  rewrite <- E. apply Nat.lt_succ_r, filter_length_le.
Qed.

(** *** The template region of [tm_task]

    The rectangle [(x, y, w, h)] after [int], moved and cut to the image of
    size [img_w] x [img_h]; [None] stands for the [ValueError] raised when
    the width or the height that is left is not positive. *)
Definition template_region (img_w img_h x y w h : Z)
  : option (Z * Z * Z * Z) :=
  let x := Z.max 0 x in
  let y := Z.max 0 y in
  let w := Z.min w (img_w - x) in
  let h := Z.min h (img_h - y) in
  if (w <=? 0) || (h <=? 0) then None else Some (x, y, w, h).

(** What [tm_task] returns: the number of matches, the kept positions and
    the template size. *)
Record tm_result : Type := mk_tm_result {
  matched_regions_count : nat;
  final_points : list (Z * Z);
  template_w : Z;
  template_h : Z
}.

Section Correlation.
(** [matchTemplate x y w h] stands for the score surface that
    [cv2.matchTemplate] returns for the template cut at [(x, y)] with size
    [w] x [h]. *)
Variable matchTemplate : Z -> Z -> Z -> Z -> list (list Q).

Definition tm_task (img_w img_h x y w h : Z) (tm_threshold : Q)
  : option tm_result :=
  match template_region img_w img_h x y w h with
  | None => None
  | Some (x', y', w', h') =>
    let res := matchTemplate x' y' w' h' in
    let nms_distance := Z.min w' h' / 2 in
    let final_points := apply_nms_manual res tm_threshold nms_distance w' h' in
    Some (mk_tm_result (length final_points) final_points w' h')
  end.
End Correlation.

(** A score surface with [rows] rows of [cols] entries each. *)
Definition surface_shape (res : list (list Q)) (rows cols : Z) : Prop :=
  Z.of_nat (length res) = rows /\
  Forall (fun row => Z.of_nat (length row) = cols) res.

End MarkerLocator.

(** ** CenterExtractor *)

Module CenterExtractor.
Import PointOrdering.

(** What [ce_task] reads of one contour: [cv2.contourArea],
    [cv2.arcLength] and the moments [m00], [m10], [m01] of [cv2.moments]. *)
Record contour : Type := mk_contour {
  area : Q;
  perimeter : Q;
  m00 : Q;
  m10 : Q;
  m01 : Q
}.

Definition Qlt_bool (a b : Q) : bool := negb (Qle_bool b a).

(** [int(q)]: truncation toward zero. *)
Definition int_of (q : Q) : Z := Z.quot (Qnum q) (Z.pos (Qden q)).

(** The double [np.pi]. *)
Definition np_pi : Q := 884279719003555 # 281474976710656.

(** The body of [for contour in contours_region] for the window whose
    top-left corner is [(x1, y1)]: the centre appended to
    [all_centroids_full_coords], if any. *)
Definition contour_center (x1 y1 : Z) (min_area min_circularity : Q)
    (c : contour) : option point :=
  if Qeq_bool (perimeter c) 0 then None
  else
    let circularity :=
      if Qlt_bool 0 (perimeter c)
      then (4 * np_pi * area c / (perimeter c * perimeter c))%Q
      else 0%Q in
    if Qlt_bool min_area (area c) && Qlt_bool min_circularity circularity then
      if negb (Qeq_bool (m00 c) 0) then
        let center_x_rel := int_of (m10 c / m00 c) in
        let center_y_rel := int_of (m01 c / m00 c) in
        Some (x1 + center_x_rel, y1 + center_y_rel)
      else None
    else None.



(** *** Deduplication *)

Definition min_dist_threshold : Z := 5.

Definition dist_sq (p q : point) : Z :=
  (px p - px q) * (px p - px q) + (py p - py q) * (py p - py q).

(** [cdist(p, q) < min_dist_threshold] on integer centres: the Euclidean
    distance is below 5 exactly when its square is below 25. *)
Definition close (p q : point) : bool :=
  dist_sq p q <? min_dist_threshold * min_dist_threshold.

(** One iteration [i] of [for i in range(len(centroids_array))]: when
    [to_keep[i]] holds, every [j > i] still kept and close to [i] is cleared. *)
Definition dedup_step (centroids_array : list point) (to_keep : list bool)
    (i : nat) : list bool :=
  if nth i to_keep false then
    map (fun j =>
           let kept := nth j to_keep false in
           if (i <? j)%nat && kept
              && close (at_index centroids_array i) (at_index centroids_array j)
           then false else kept)
        (seq 0 (length to_keep))
  else to_keep.

Definition dedup_mask (centroids_array : list point) : list bool :=
  let to_keep := repeat true (length centroids_array) in
  if (1 <? length centroids_array)%nat then
    fold_left (dedup_step centroids_array)
              (seq 0 (length centroids_array)) to_keep
  else to_keep.

(** What holds of the mask once the iterations [0 .. k-1] are done: a kept
    index below [k] has cleared every later index close to it, and a cleared
    index has a kept, close index before it. *)
Definition dedup_inv (centroids_array : list point) (k : nat)
    (to_keep : list bool) : Prop :=
  length to_keep = length centroids_array /\
  (forall i j : nat,
      (i < k)%nat -> (i < j)%nat -> (j < length centroids_array)%nat ->
      nth i to_keep false = true ->
      close (at_index centroids_array i) (at_index centroids_array j) = true ->
      nth j to_keep false = false) /\
  (forall j : nat,
      (j < length centroids_array)%nat -> nth j to_keep false = false ->
      exists i : nat,
        (i < j)%nat /\ (i < k)%nat /\ nth i to_keep false = true /\
        close (at_index centroids_array i) (at_index centroids_array j) = true).

(** [array[mask]]: the entries whose mask bit is set, in their order. *)
Fixpoint select {A : Type} (mask : list bool) (l : list A) : list A :=
  match mask, l with
  | b :: mask', x :: l' => if b then x :: select mask' l' else select mask' l'
  | _, _ => []
  end.

Definition unique_centroids (all_centroids_full_coords : list point)
  : list point :=
  match all_centroids_full_coords with
  | [] => []
  | _ => select (dedup_mask all_centroids_full_coords) all_centroids_full_coords
  end.

(** *** The task

    [findContours y1 y2 x1 x2] stands for the contours that
    [cv2.findContours] reports in the window [dilation[y1:y2, x1:x2]]. *)
Section Task.
Variable findContours : Z -> Z -> Z -> Z -> list contour.

Definition region_centroids (img_w_full img_h_full tm_w tm_h : Z)
    (min_area min_circularity : Q) (pt : point) : list point :=
  let y1 := Z.max 0 (py pt) in
  let y2 := Z.min img_h_full (py pt + tm_h) in
  let x1 := Z.max 0 (px pt) in
  let x2 := Z.min img_w_full (px pt + tm_w) in
  if (y1 >=? y2) || (x1 >=? x2) then []
  else
    flat_map (fun c =>
                match contour_center x1 y1 min_area min_circularity c with
                | Some p => [p]
                | None => []
                end)
             (findContours y1 y2 x1 x2).

(** The count and the sorted coordinates returned by [ce_task]. *)
Definition ce_task (img_w_full img_h_full : Z) (tm_points : list point)
    (tm_w tm_h : Z) (a_thresh c_thresh : Q) : nat * list point :=
  let all_centroids_full_coords :=
    flat_map (region_centroids img_w_full img_h_full tm_w tm_h a_thresh c_thresh)
             tm_points in
  let unique_centroids_array := unique_centroids all_centroids_full_coords in
  let num_centers := length unique_centroids_array in
  (num_centers,
   if (0 <? num_centers)%nat
   then sort_grid_points unique_centroids_array default_row_tolerance
   else []).
End Task.

(** The window [(y1, y2, x1, x2)] of the dilated edge map that [ce_task]
    searches for the marker at [pt], or [None] when the marker's box misses
    the image and the marker is passed over. *)
Definition region_window (img_w_full img_h_full tm_w tm_h : Z) (pt : point)
  : option (Z * Z * Z * Z) :=
  let y1 := Z.max 0 (py pt) in
  let y2 := Z.min img_h_full (py pt + tm_h) in
  let x1 := Z.max 0 (px pt) in
  let x2 := Z.min img_w_full (px pt + tm_w) in
  if (y1 >=? y2) || (x1 >=? x2) then None else Some (y1, y2, x1, x2).

(** Two centres at least [min_dist_threshold] apart. *)
Definition far_apart (p q : point) : Prop :=
  min_dist_threshold * min_dist_threshold <= dist_sq p q.

End CenterExtractor.

(** ** CoordinateMapper *)

Module CoordinateMapper.
Import PointOrdering.

(** A real-world coordinate pair, or a control pixel position read from the
    table (two decimals): rationals. *)
Definition rpoint : Type := Q * Q.

(** The 2 x 3 matrix returned by [cv2.getAffineTransform], row by row. *)
Definition affine : Type := (Q * Q * Q) * (Q * Q * Q).

(** One row of the control-point table as [run_coordinate_transformation]
    reads it: a row with a cell that is missing, still shows the
    placeholder or holds the hint text is passed over; a row whose text
    [float] rejects takes the [except] branch; otherwise the row gives a
    pixel position and a real coordinate. *)
Inductive table_row : Type :=
| RowUnset
| RowUnparsable
| RowValid (pixel real : rpoint).

Definition is_valid (row : table_row) : bool :=
  match row with RowValid _ _ => true | _ => false end.

(** [valid_points] after the loop over the rows. *)
Definition valid_points (table : list table_row) : nat :=
  length (filter is_valid table).

(** What the status bar shows when no task is started. *)
Inductive status_error : Type :=
| NoExtractedCenters      (* 'pixel_coords' absent from the results *)
| RowParseFailure         (* a row could not be parsed *)
| TooFewControlPoints.    (* fewer than [min_points = 3] valid rows *)

(** The dictionary returned by [ct_task]. *)
Inductive ct_result : Type :=
| CtError                              (* {"error": ...} *)
| CtCoords (real_coords : list rpoint). (* {"real_coords": ..., ...} *)

Inductive outcome : Type :=
| StatusError (e : status_error)
| TaskDone (r : ct_result).

(** The loop over the table rows: the control pixel and real lists, or
    [None] when a row fails to parse. *)
Fixpoint read_rows (table : list table_row)
    (pixel_points_ctrl real_points_ctrl : list rpoint)
  : option (list rpoint * list rpoint) :=
  match table with
  | [] => Some (pixel_points_ctrl, real_points_ctrl)
  | RowUnset :: rest => read_rows rest pixel_points_ctrl real_points_ctrl
  | RowUnparsable :: _ => None
  | RowValid pixel real :: rest =>
    read_rows rest (pixel_points_ctrl ++ [pixel]) (real_points_ctrl ++ [real])
  end.

(** [[x, y, 1] . M^T] for one centre. *)
Definition apply_affine (M : affine) (p : point) : rpoint :=
  let '((a, b, c), (d, e, f)) := M in
  ((inject_Z (px p) * a + inject_Z (py p) * b + 1 * c)%Q,
   (inject_Z (px p) * d + inject_Z (py p) * e + 1 * f)%Q).

(** Three positions on one line. *)
Definition collinear (p1 p2 p3 : rpoint) : Prop :=
  ((fst p2 - fst p1) * (snd p3 - snd p1)
   == (fst p3 - fst p1) * (snd p2 - snd p1))%Q.

Section Solver.
(** [cv2.getAffineTransform] on the control pixel and real lists; [None]
    when the call raises. *)
Variable getAffineTransform : list rpoint -> list rpoint -> option affine.

Definition ct_task (pixel_coords_data : list point)
    (control_pixel control_real : list rpoint) : ct_result :=
  match pixel_coords_data with
  | [] => CtCoords []
  | _ =>
    match getAffineTransform control_pixel control_real with
    | None => CtError
    | Some transform_matrix =>
      CtCoords (map (apply_affine transform_matrix) pixel_coords_data)
    end
  end.

Definition run_coordinate_transformation (pixel_coords : option (list point))
    (table : list table_row) : outcome :=
  match pixel_coords with
  | None => StatusError NoExtractedCenters
  | Some pixel_coords_to_transform =>
    match read_rows table [] [] with
    | None => StatusError RowParseFailure
    | Some (pixel_points_ctrl, real_points_ctrl) =>
      if (length pixel_points_ctrl <? 3)%nat
      then StatusError TooFewControlPoints
      else TaskDone (ct_task pixel_coords_to_transform
                             pixel_points_ctrl real_points_ctrl)
    end
  end.
End Solver.

(** The control pixel positions and real coordinates of the valid rows. *)
Definition control_pixels (table : list table_row) : list rpoint :=
  flat_map (fun row => match row with RowValid p _ => [p] | _ => [] end) table.
Definition control_reals (table : list table_row) : list rpoint :=
  flat_map (fun row => match row with RowValid _ r => [r] | _ => [] end) table.

(** A table whose three rows are set, with the pixel positions on the
    diagonal. *)
Definition collinear_table : list table_row :=
  [RowValid (0, 0)%Q (0, 0)%Q; RowValid (1, 1)%Q (1, 0)%Q;
   RowValid (2, 2)%Q (0, 1)%Q].

End CoordinateMapper.

(** ** ControlPointPicker *)

Module ControlPointPicker.

(** A clicked position [[point.x(), point.y()]]. *)
Definition pixel : Type := Q * Q.

(** The entry ['control_points_pixel'] of an image's results: absent, or a
    list with one cell per table row, [None] for a row not yet picked. *)
Definition store : Type := option (list (option pixel)).

(** The list that [handle_point_clicked] works on: the stored one when it
    is present and has [num_rows] cells, else [[None] * num_rows]. *)
Definition stored_or_reset (num_rows : nat) (s : store)
  : list (option pixel) :=
  match s with
  | Some l => if (length l =? num_rows)%nat then l else repeat None num_rows
  | None => repeat None num_rows
  end.

(** The loop [for row in range(num_rows)] that stops at the first cell
    that is still [None]. *)
Fixpoint first_unset (l : list (option pixel)) : option nat :=
  match l with
  | [] => None
  | None :: _ => Some 0%nat
  | Some _ :: l' => option_map S (first_unset l')
  end.

(** [l[row] = v]; [None] when the index is out of range, where the
    assignment raises. *)
Fixpoint set_row (row : nat) (v : pixel) (l : list (option pixel))
  : option (list (option pixel)) :=
  match l, row with
  | [], _ => None
  | _ :: l', O => Some (Some v :: l')
  | c :: l', S row' => option_map (cons c) (set_row row' v l')
  end.

(** [handle_point_clicked] for the current image: the new list and the new
    [selected_control_point_row] ([-1]: no row selected); [None] when the
    handler raises. *)
Definition handle_point_clicked (num_rows : nat)
    (selected_control_point_row : Z) (s : store) (point : pixel)
  : option (list (option pixel) * Z) :=
  let stored := stored_or_reset num_rows s in
  if 0 <=? selected_control_point_row then
    option_map (fun l => (l, -1))
               (set_row (Z.to_nat selected_control_point_row) point stored)
  else
    match first_unset stored with
    | Some row_to_update =>
      option_map (fun l => (l, selected_control_point_row))
                 (set_row row_to_update point stored)
    | None => Some (stored, selected_control_point_row)
    end.

(** Successive clicks, each handled with the list and the selection that
    the previous one left. *)
Fixpoint click_sequence (num_rows : nat) (selected_control_point_row : Z)
    (s : store) (points : list pixel) : option (store * Z) :=
  match points with
  | [] => Some (s, selected_control_point_row)
  | p :: rest =>
    match handle_point_clicked num_rows selected_control_point_row s p with
    | None => None
    | Some (l, selected) => click_sequence num_rows selected (Some l) rest
    end
  end.

End ControlPointPicker.

(** ** ResultStore *)

Module ResultStore.
Import PointOrdering.

(** The entries of [processing_results[current_image_path]] that the
    template matching and the centre extraction write and read; [None] for
    a key that is absent. *)
Record results : Type := mk_results {
  tm_count : option nat;
  final_points : option (list point);
  template_w : option Z;
  template_h : option Z;
  ce_count : option nat;
  pixel_coords : option (list point)
}.

(** [handle_tm_result]; the argument is [None] for the dictionary
    [{"error": ...}] of a task that raised. *)
Definition handle_tm_result (result_data : option MarkerLocator.tm_result)
    (current_results : results) : results :=
  match result_data with
  | None => current_results
  | Some r =>
    mk_results (Some (MarkerLocator.matched_regions_count r))
               (Some (MarkerLocator.final_points r))
               (Some (MarkerLocator.template_w r))
               (Some (MarkerLocator.template_h r))
               (ce_count current_results)
               (pixel_coords current_results)
  end.

(** What [trigger_ce_after_tm] decides. *)
Inductive trigger : Type :=
| RunExtraction       (* calls [run_circle_extraction] *)
| SkipNoRegion        (* 'tm_count' is 0 *)
| SkipInvalid.        (* no usable template matching result *)

Definition trigger_ce_after_tm (current_results : results) : trigger :=
  match tm_count current_results, final_points current_results with
  | Some (S _), Some _ => RunExtraction
  | Some O, _ => SkipNoRegion
  | _, _ => SkipInvalid
  end.

(** What [run_circle_extraction] does before any task runs. *)
Inductive extraction : Type :=
| NoTemplateMatching        (* a status message only *)
| NothingToExtract          (* no marker: the earlier centres are removed *)
| StartTask (tm_points : list point) (tm_w tm_h : Z).
                            (* [ce_task] is started on these arguments *)

Definition run_circle_extraction (current_results : results)
  : extraction * results :=
  match final_points current_results,
        template_w current_results, template_h current_results with
  | Some [], Some _, Some _ =>
    (NothingToExtract,
     mk_results (tm_count current_results) (final_points current_results)
                (template_w current_results) (template_h current_results)
                None None)
  | Some points, Some w, Some h => (StartTask points w h, current_results)
  | _, _, _ => (NoTemplateMatching, current_results)
  end.

End ResultStore.

(** ** CorrespondenceTracker *)

Module CorrespondenceTracker.

(** A real-world coordinate pair. *)
Definition rpoint : Type := Q * Q.

(** One entry of [tracked_data]; [coord = None] stands for the row whose
    [x_coord] and [y_coord] are [np.nan]. *)
Record tracked_row : Type := mk_row {
  unique_id : nat;
  time_step : nat;
  coord : option rpoint
}.

Definition MAX_MATCHING_DISTANCE : Q := 0.5.

Definition dist_sq (p q : rpoint) : Q :=
  ((fst p - fst q) * (fst p - fst q) + (snd p - snd q) * (snd p - snd q))%Q.

(** [dist <= MAX_MATCHING_DISTANCE] for the Euclidean distance, through the
    squares. *)
Definition within_reach (ref cur : rpoint) : bool :=
  Qle_bool (dist_sq ref cur) (MAX_MATCHING_DISTANCE * MAX_MATCHING_DISTANCE).

(** An entry [(dist, uid, cur_idx)] of [potential_matches]; the distance is
    carried as its square, which orders the entries the same way. *)
Definition potential_match : Type := Q * nat * nat.

Definition match_uid (m : potential_match) : nat := snd (fst m).
Definition match_cur_idx (m : potential_match) : nat := snd m.

(** The two nested loops that fill [potential_matches]; [reference_points]
    is the dictionary as the list of its items, in insertion order. *)
Definition potential_matches (reference_points : list (nat * rpoint))
    (current_coords : list rpoint) : list potential_match :=
  flat_map
    (fun ref =>
       flat_map
         (fun cur =>
            if within_reach (snd ref) (snd cur)
            then [(dist_sq (snd ref) (snd cur), fst ref, fst cur)]
            else [])
         (combine (seq 0 (length current_coords)) current_coords))
    reference_points.

(** The order of [potential_matches.sort()] on the tuples: by distance,
    then by id, then by index. *)
Definition match_leb (a b : potential_match) : bool :=
  if Qeq_bool (fst (fst a)) (fst (fst b)) then
    if (match_uid a =? match_uid b)%nat
    then (match_cur_idx a <=? match_cur_idx b)%nat
    else (match_uid a <? match_uid b)%nat
  else Qle_bool (fst (fst a)) (fst (fst b)).

(** Dictionaries keyed by id, as lists of items in insertion order. *)
Fixpoint dict_get (uid : nat) (d : list (nat * rpoint)) : option rpoint :=
  match d with
  | [] => None
  | (k, v) :: d' => if (k =? uid)%nat then Some v else dict_get uid d'
  end.

Fixpoint dict_set (uid : nat) (v : rpoint) (d : list (nat * rpoint))
  : list (nat * rpoint) :=
  match d with
  | [] => [(uid, v)]
  | (k, w) :: d' =>
    if (k =? uid)%nat then (k, v) :: d' else (k, w) :: dict_set uid v d'
  end.

Definition mem (n : nat) (s : list nat) : bool := existsb (Nat.eqb n) s.

(** The sets and dictionaries of the greedy pass. *)
Record match_state : Type := mk_match_state {
  matched_cur_indices : list nat;
  matched_ref_ids : list nat;
  current_matches_dict : list (nat * rpoint);
  new_reference_points : list (nat * rpoint)
}.

(** One iteration of [for dist, uid, cur_idx in potential_matches]. *)
Definition commit (current_coords : list rpoint) (st : match_state)
    (m : potential_match) : match_state :=
  if negb (mem (match_uid m) (matched_ref_ids st))
     && negb (mem (match_cur_idx m) (matched_cur_indices st))
  then
    let coord := nth (match_cur_idx m) current_coords (0, 0)%Q in
    mk_match_state
      (match_cur_idx m :: matched_cur_indices st)
      (match_uid m :: matched_ref_ids st)
      (dict_set (match_uid m) coord (current_matches_dict st))
      (dict_set (match_uid m) coord (new_reference_points st))
  else st.

Definition match_period (reference_points : list (nat * rpoint))
    (current_coords : list rpoint) : match_state :=
  fold_left (commit current_coords)
            (isort match_leb (potential_matches reference_points current_coords))
            (mk_match_state [] [] [] []).

(** The rows appended for period index [t] (time step [t + 1]): one per
    reference id, with the matched coordinate or NaN. *)
Definition period_rows (t : nat) (ref_ids : list nat) (st : match_state)
  : list tracked_row :=
  map (fun uid =>
         match dict_get uid (current_matches_dict st) with
         | Some coord => mk_row uid (t + 1) (Some coord)
         | None => mk_row uid (t + 1) None
         end)
      ref_ids.

(** The loop [for t in range(1, num_time_steps)] from index [t] on, over the
    remaining periods: the rows it appends to [tracked_data]. *)
Fixpoint track_from (t : nat) (reference_points : list (nat * rpoint))
    (periods : list (list rpoint)) : list tracked_row :=
  match periods with
  | [] => []
  | current_coords :: rest =>
    if (length current_coords =? 0)%nat || (length reference_points =? 0)%nat
    then track_from (S t) reference_points rest
    else
      let st := match_period reference_points current_coords in
      period_rows t (map fst reference_points) st
      ++ track_from (S t) (new_reference_points st) rest
  end.

(** [initial_coords]: the first period's points under their index. *)
Definition initial_coords (first_period_coords : list rpoint)
  : list (nat * rpoint) :=
  combine (seq 0 (length first_period_coords)) first_period_coords.

Definition tracked_data (periods_data : list (list rpoint))
  : list tracked_row :=
  match periods_data with
  | [] => []
  | first_period_coords :: rest =>
    map (fun ic => mk_row (fst ic) 1 (Some (snd ic)))
        (initial_coords first_period_coords)
    ++ track_from 1 (initial_coords first_period_coords) rest
  end.

(** [periods_data]: the per-image coordinate arrays that are not empty, in
    the order of the sorted image names. *)
Definition periods_data (all_real_coords : list (list rpoint))
  : list (list rpoint) :=
  filter (fun a => negb (length a =? 0)%nat) all_real_coords.

Definition plot_task_tracked (all_real_coords : list (list rpoint))
  : list tracked_row :=
  tracked_data (periods_data all_real_coords).

(** Reading the table. *)
Definition has_row (T : list tracked_row) (uid t : nat) : Prop :=
  exists c, In (mk_row uid t c) T.
Definition matched_at (T : list tracked_row) (uid t : nat) : Prop :=
  exists p, In (mk_row uid t (Some p)) T.
Definition missing_at (T : list tracked_row) (uid t : nat) : Prop :=
  In (mk_row uid t None) T.

(** Three periods: two points first, then twice only the first of them. *)
Definition three_periods : list (list rpoint) :=
  [[(0, 0); (10, 10)]; [(0, 0)]; [(0, 0)]]%Q.

(** The pairs [(uid, cur_idx)] committed by the greedy pass. *)
Definition matched_pairs (st : match_state) : list (nat * nat) :=
  combine (matched_ref_ids st) (matched_cur_indices st).

(** What the greedy loop keeps true of its sets and dictionaries. *)
Definition match_inv (current_coords : list rpoint) (st : match_state)
  : Prop :=
  NoDup (matched_ref_ids st) /\ NoDup (matched_cur_indices st) /\
  length (matched_ref_ids st) = length (matched_cur_indices st) /\
  (forall uid idx,
      In (uid, idx) (matched_pairs st) ->
      dict_get uid (current_matches_dict st)
      = Some (nth idx current_coords (0, 0)%Q)) /\
  (forall uid,
      dict_get uid (current_matches_dict st) <> None ->
      In uid (matched_ref_ids st)).

(** [y_initial] of an id: the [y_coord] of its row of time step 1, the
    column that the join on [unique_id] adds to the rows of the id. *)
Definition initial_y (T : list tracked_row) (uid : nat) : option Q :=
  match find (fun r => (time_step r =? 1)%nat && (unique_id r =? uid)%nat) T
  with
  | Some r => option_map snd (coord r)
  | None => None
  end.

(** [df['delta_y'] = df['y_coord'] - df['y_initial']] for one row; [None]
    stands for NaN. *)
Definition delta_y (T : list tracked_row) (row : tracked_row) : option Q :=
  match coord row, initial_y T (unique_id row) with
  | Some p, Some y0 => Some (snd p - y0)%Q
  | _, _ => None
  end.

End CorrespondenceTracker.

(** * Properties *)

(** *** Facts about the stable sort *)

Section StableSortFacts.
Context {A : Type}.
Variable leb : A -> A -> bool.

Lemma insert_perm a l : Permutation (insert leb a l) (a :: l).
Proof.
  induction l as [|b l IH]; simpl; [reflexivity|].
  destruct (leb a b); [reflexivity|].
  rewrite IH. apply perm_swap.
Qed.

Lemma isort_perm l : Permutation (isort leb l) l.
Proof.
  induction l as [|a l IH]; simpl; [constructor|].
  rewrite insert_perm. now constructor.
Qed.

Lemma isort_length l : length (isort leb l) = length l.
Proof. apply Permutation_length, isort_perm. Qed.

Lemma isort_in a l : In a (isort leb l) <-> In a l.
Proof.
  split; apply Permutation_in; [|symmetry]; apply isort_perm.
Qed.

(** A list that is already in order is left alone. *)
Lemma insert_head a l :
  Forall (le_of leb a) l -> insert leb a l = a :: l.
Proof.
  intros H. destruct l as [|b l]; [reflexivity|].
  simpl. inversion H as [|? ? Hab _]; subst.
  unfold le_of in Hab. now rewrite Hab.
Qed.

Lemma isort_sorted_id l :
  StronglySorted (le_of leb) l -> isort leb l = l.
Proof.
  induction 1 as [|a l Hs IH Ha]; simpl; [reflexivity|].
  rewrite IH. now apply insert_head.
Qed.



Hypothesis leb_total : forall a b, leb a b = true \/ leb b a = true.
Hypothesis leb_trans :
  forall a b c, leb a b = true -> leb b c = true -> leb a c = true.

Lemma insert_sorted a l :
  StronglySorted (le_of leb) l -> StronglySorted (le_of leb) (insert leb a l).
Proof.
  induction 1 as [|b l Hs IH Hb]; simpl.
  - repeat constructor.
  - destruct (leb a b) eqn:E.
    + constructor; [now constructor|].
      constructor; [exact E|].
      eapply Forall_impl; [|exact Hb]. intros c Hc. unfold le_of in *.
      eapply leb_trans; eauto.
    + constructor; [exact IH|].
      apply Forall_forall. intros c Hc.
      apply (Permutation_in _ (insert_perm a l)) in Hc.
      destruct Hc as [<-|Hc].
      * destruct (leb_total a b) as [F|F]; [congruence|exact F].
      * rewrite Forall_forall in Hb. now apply Hb.
Qed.

Lemma isort_sorted l : StronglySorted (le_of leb) (isort leb l).
Proof.
  induction l as [|a l IH]; simpl; [constructor|].
  now apply insert_sorted.
Qed.

(** Filtering commutes with the stable sort. *)
Lemma insert_filter_drop (p : A -> bool) a s :
  p a = false -> filter p (insert leb a s) = filter p s.
Proof.
  intros Hp. induction s as [|b s IH]; simpl; [now rewrite Hp|].
  destruct (leb a b); simpl; [now rewrite Hp|]. now rewrite IH.
Qed.

Lemma insert_filter_keep (p : A -> bool) a s :
  StronglySorted (le_of leb) s -> p a = true ->
  filter p (insert leb a s) = insert leb a (filter p s).
Proof.
  intros Hs Hp. induction Hs as [|b s Hs IH Hb]; simpl; [now rewrite Hp|].
  destruct (leb a b) eqn:E.
  - cbn [filter]. rewrite Hp. symmetry. apply insert_head.
    apply Forall_forall. intros c Hc.
    assert (Hc' : In c (b :: s))
      by (apply (proj1 (filter_In p c (b :: s))) in Hc; tauto).
    destruct Hc' as [<-|Hc']; [exact E|].
    rewrite Forall_forall in Hb. unfold le_of in *.
    eapply leb_trans; [exact E|now apply Hb].
  - simpl. rewrite IH. destruct (p b); simpl; [now rewrite E|reflexivity].
Qed.

Lemma isort_filter (p : A -> bool) l :
  filter p (isort leb l) = isort leb (filter p l).
Proof.
  induction l as [|a l IH]; simpl; [reflexivity|].
  destruct (p a) eqn:Hp; simpl.
  - rewrite insert_filter_keep by (auto using isort_sorted).
    now rewrite IH.
  - now rewrite insert_filter_drop.
Qed.
End StableSortFacts.

(** Sorting commutes with a change of representation of the elements. *)
Lemma isort_map {A B : Type} (g : A -> B) (leb : B -> B -> bool) (l : list A) :
  map g (isort (fun a b => leb (g a) (g b)) l) = isort leb (map g l).
Proof.
  induction l as [|a l IH]; simpl; [reflexivity|].
  rewrite <- IH. clear IH.
  induction (isort (fun a b => leb (g a) (g b)) l) as [|b s IHs]; simpl;
    [reflexivity|].
  destruct (leb (g a) (g b)); simpl; [reflexivity|]. now rewrite IHs.
Qed.


(** Only the comparisons between elements of the list matter. *)
Lemma insert_ext_in {A : Type} (leb1 leb2 : A -> A -> bool) a l :
  (forall b, In b l -> leb1 a b = leb2 a b) ->
  insert leb1 a l = insert leb2 a l.
Proof.
  induction l as [|b l IH]; intros H; simpl; [reflexivity|].
  rewrite (H b) by now left.
  destruct (leb2 a b); [reflexivity|].
  f_equal. apply IH. intros c Hc. apply H. now right.
Qed.

Lemma isort_ext_in {A : Type} (leb1 leb2 : A -> A -> bool) l :
  (forall a b, In a l -> In b l -> leb1 a b = leb2 a b) ->
  isort leb1 l = isort leb2 l.
Proof.
  induction l as [|a l IH]; intros H; simpl; [reflexivity|].
  rewrite IH by (intros; apply H; simpl; auto).
  apply insert_ext_in. intros b Hb.
  apply isort_in in Hb. apply H; simpl; auto.
Qed.

(** *** Order facts used for the rows *)

Lemma strongly_sorted_app {A : Type} (R : A -> A -> Prop) l1 l2 :
  StronglySorted R (l1 ++ l2) <->
  StronglySorted R l1 /\ StronglySorted R l2 /\
  (forall a b, In a l1 -> In b l2 -> R a b).
Proof.
  induction l1 as [|c l1 IH]; simpl.
  - split; [intros H; repeat split; [constructor|exact H|contradiction]|tauto].
  - split.
    + intros H. apply StronglySorted_inv in H. destruct H as [Hs Hc].
      apply IH in Hs. destruct Hs as (H1 & H2 & H12).
      apply Forall_app in Hc. destruct Hc as [Hc1 Hc2].
      repeat split; [now constructor|exact H2|].
      intros a b [<-|Ha] Hb; [|now apply H12].
      rewrite Forall_forall in Hc2. now apply Hc2.
    + intros (H1 & H2 & H12). apply StronglySorted_inv in H1.
      destruct H1 as [H1 Hc]. constructor.
      * apply IH. repeat split; auto.
      * apply Forall_app. split; [exact Hc|].
        apply Forall_forall. intros b Hb. apply H12; auto.
Qed.

Lemma sort_by_key_sorted {A : Type} (key : A -> Z) l :
  StronglySorted (key_le key) (sort_by_key key l).
Proof.
  unfold sort_by_key.
  eapply StronglySorted_ind
    with (P := StronglySorted (key_le key))
         (R := le_of (fun a b => key a <=? key b)).
  - constructor.
  - intros a l' _ IH Ha. constructor; [exact IH|].
    eapply Forall_impl; [|exact Ha]. intros b Hb. now apply Z.leb_le in Hb.
  - apply isort_sorted.
    + intros a b. rewrite !Z.leb_le. lia.
    + intros a b c. rewrite !Z.leb_le. lia.
Qed.

Lemma sort_by_key_sorted_id {A : Type} (key : A -> Z) l :
  StronglySorted (key_le key) l -> sort_by_key key l = l.
Proof.
  intros H. apply isort_sorted_id.
  induction H as [|a l' Hs IH Ha]; constructor; [exact IH|].
  eapply Forall_impl; [|exact Ha]. intros b Hb. now apply Z.leb_le.
Qed.



(** *** Positions in a list *)

Lemma nth_map_lt {A B : Type} (f : A -> B) l n d d' :
  (n < length l)%nat -> nth n (map f l) d = f (nth n l d').
Proof.
  revert n. induction l as [|a l IH]; intros n Hn; simpl in *; [lia|].
  destruct n; [reflexivity|]. apply IH. lia.
Qed.

Lemma map_seq_nth {A : Type} (l : list A) d :
  map (fun k => nth k l d) (seq 0 (length l)) = l.
Proof.
  apply nth_ext with (d := d) (d' := d).
  - now rewrite length_map, length_seq.
  - intros n Hn. rewrite length_map, length_seq in Hn.
    rewrite nth_map_lt with (d' := 0%nat) by now rewrite length_seq.
    now rewrite seq_nth.
Qed.

(** *** Filtering *)


Lemma filter_sorted {A : Type} (R : A -> A -> Prop) (f : A -> bool) l :
  StronglySorted R l -> StronglySorted R (filter f l).
Proof.
  induction 1 as [|a l Hs IH Ha]; simpl; [constructor|].
  destruct (f a); [|exact IH]. constructor; [exact IH|].
  rewrite Forall_forall in Ha |- *. intros b Hb.
  apply filter_In in Hb. now apply Ha.
Qed.

(** ** PointOrdering *)

Module PointOrderingFacts.
Import PointOrdering.

Section RowsFacts.
Context {A : Type}.
Variable ky : A -> Z.
Variable r : Z.

Local Abbreviation rows_from := (rows_from ky r).
Local Abbreviation rows := (rows ky r).
Local Abbreviation row_chain := (row_chain ky r).

Lemma rows_from_cur last cur l :
  rows_from last cur l =
  match rows_from last [] l with
  | B :: Bs => (cur ++ B) :: Bs
  | [] => [cur]
  end.
Proof.
  revert cur. induction l as [|p l IH]; intros cur; simpl.
  - now rewrite app_nil_r.
  - destruct (Z.abs (ky p - last) <? r).
    + rewrite (IH (cur ++ [p])), (IH [p]).
      destruct (rows_from last [] l); [reflexivity|].
      now rewrite <- app_assoc.
    + now rewrite app_nil_r.
Qed.

Lemma rows_from_concat last cur l :
  concat (rows_from last cur l) = cur ++ l.
Proof.
  revert last cur. induction l as [|p l IH]; intros last cur; simpl.
  - reflexivity.
  - destruct (Z.abs (ky p - last) <? r); simpl; rewrite IH.
    + now rewrite <- app_assoc.
    + reflexivity.
Qed.

Lemma rows_concat l : concat (rows l) = l.
Proof. destruct l; simpl; [reflexivity|]. now rewrite rows_from_concat. Qed.

Lemma rows_from_chain a t l :
  Forall (fun p => Z.abs (ky p - ky a) < r) t ->
  row_chain (rows_from (ky a) (a :: t) l).
Proof.
  revert a t. induction l as [|p l IH]; intros a t Ht; simpl.
  - now constructor.
  - destruct (Z.abs (ky p - ky a) <? r) eqn:E.
    + apply (IH a (t ++ [p])). apply Forall_app. split; [exact Ht|].
      constructor; [|constructor]. now apply Z.ltb_lt.
    + specialize (IH p [] (Forall_nil _)). simpl in IH.
      apply Z.ltb_ge in E.
      rewrite rows_from_cur in IH |- *.
      destruct (rows_from (ky p) [] l) as [|B Bs] eqn:EB.
      * constructor; [exact Ht|exact E|exact IH].
      * constructor; [exact Ht|exact E|exact IH].
Qed.

Lemma rows_chain l : row_chain (rows l).
Proof.
  destruct l as [|a l]; simpl; [constructor|].
  apply (rows_from_chain a []). constructor.
Qed.

(** Conversely a chain is what the loop rebuilds from its concatenation. *)
Lemma rows_from_near last cur t l :
  Forall (fun p => Z.abs (ky p - last) < r) t ->
  rows_from last cur (t ++ l) = rows_from last (cur ++ t) l.
Proof.
  revert cur. induction t as [|p t IH]; intros cur Ht; simpl.
  - now rewrite app_nil_r.
  - inversion Ht as [|? ? Hp Ht']; subst.
    apply Z.ltb_lt in Hp. rewrite Hp.
    rewrite IH by exact Ht'. now rewrite <- app_assoc.
Qed.

Lemma chain_rows Bs : row_chain Bs -> rows (concat Bs) = Bs.
Proof.
  induction 1 as [|a t Ht|a t a' t' Bs Ht Hfar Hc IH]; simpl.
  - reflexivity.
  - rewrite app_nil_r.
    rewrite <- (app_nil_r t) at 1. now rewrite rows_from_near.
  - rewrite rows_from_near by exact Ht. simpl in *.
    apply Z.ltb_ge in Hfar. rewrite Hfar. now rewrite IH.
Qed.
End RowsFacts.

(** Naturality of the grouping loop. *)
Lemma rows_from_map {A B : Type} (g : A -> B) (ky : B -> Z) r last cur l :
  map (map g) (rows_from (fun a => ky (g a)) r last cur l)
  = rows_from ky r last (map g cur) (map g l).
Proof.
  revert last cur. induction l as [|p l IH]; intros last cur; simpl.
  - reflexivity.
  - destruct (Z.abs (ky (g p) - last) <? r); simpl.
    + rewrite IH. now rewrite map_app.
    + now rewrite IH.
Qed.

Lemma rows_map {A B : Type} (g : A -> B) (ky : B -> Z) r l :
  map (map g) (rows (fun a => ky (g a)) r l) = rows ky r (map g l).
Proof.
  destruct l as [|a l]; simpl; [reflexivity|].
  apply (rows_from_map g ky r (ky (g a)) [a] l).
Qed.

(** *** The index computation agrees with the computation on values *)

Lemma take_seq points : take points (seq 0 (length points)) = points.
Proof.
  unfold take, at_index.
  apply nth_ext with (d := (0, 0)) (d' := (0, 0)).
  - now rewrite length_map, length_seq.
  - intros n Hn. rewrite length_map, length_seq in Hn.
    rewrite nth_map_lt with (d' := 0%nat) by now rewrite length_seq.
    now rewrite seq_nth.
Qed.

Lemma take_argsort_y points :
  take points (argsort (map py points)) = sort_by_key py points.
Proof.
  unfold argsort, sort_by_key, take.
  rewrite length_map.
  rewrite <- (take_seq points) at 3. unfold take.
  rewrite <- isort_map. f_equal.
  apply isort_ext_in. intros a b _ _. unfold at_index.
  now rewrite <- !(map_nth py).
Qed.

Lemma fold_cluster_step r points idx m :
  forall k st,
    (k + m = length idx)%nat ->
    row_clusters_indices
      (fold_left (cluster_step r idx (take points idx)) (seq k m) st)
    ++ [current_cluster
          (fold_left (cluster_step r idx (take points idx)) (seq k m) st)]
    = row_clusters_indices st ++
      rows_from (fun i => py (at_index points i)) r
                (last_y st) (current_cluster st) (skipn k idx).
Proof.
  induction m as [|m IH]; intros k st Hk.
  - cbn [seq fold_left]. rewrite skipn_all2 by lia. reflexivity.
  - assert (Hlt : (k < length idx)%nat) by lia.
    assert (Hsk : skipn k idx = nth k idx 0%nat :: skipn (S k) idx).
    { clear -Hlt. revert k Hlt.
      induction idx as [|i idx IHi]; intros k Hlt; simpl in *; [lia|].
      destruct k; [reflexivity|]. apply IHi. lia. }
    assert (Hy : py (at_index (take points idx) k)
                 = py (at_index points (nth k idx 0%nat))).
    { unfold at_index, take.
      now rewrite nth_map_lt with (d' := 0%nat). }
    rewrite Hsk. cbn [seq fold_left rows_from].
    rewrite (IH (S k)) by lia.
    unfold cluster_step. rewrite Hy.
    destruct (Z.abs (py (at_index points (nth k idx 0%nat)) - last_y st) <? r);
      cbn [row_clusters_indices current_cluster last_y].
    + reflexivity.
    + now rewrite <- app_assoc.
Qed.

Lemma row_clusters_rows r points :
  row_clusters r points
  = rows (fun i => py (at_index points i)) r (argsort (map py points)).
Proof.
  unfold row_clusters.
  destruct (argsort (map py points)) as [|i idx'] eqn:E; [reflexivity|].
  cbn [take map length rows].
  replace (S (length (map (at_index points) idx')) - 1)%nat
    with (length idx') by (rewrite length_map; lia).
  pose proof (fold_cluster_step r points (i :: idx') (length idx') 1
                (mk_cluster_state [] [i] (py (at_index points i)))) as H.
  cbn [take map length skipn row_clusters_indices current_cluster last_y
       app] in H.
  apply H. reflexivity.
Qed.

Lemma sort_row_values points row :
  sort_row points row = sort_by_key px (take points row).
Proof.
  destruct row as [|i row']; [reflexivity|].
  unfold sort_row. set (row := i :: row').
  unfold argsort, sort_by_key, take.
  rewrite map_map, !length_map.
  set (leb1 := fun a b : nat => _ <=? _).
  assert (Hr : map (at_index points) row
               = map (fun k => at_index points (nth k row 0%nat))
                     (seq 0 (length row))).
  { rewrite <- (map_map (fun k => nth k row 0%nat) (at_index points)).
    now rewrite map_seq_nth. }
  rewrite Hr, <- isort_map. f_equal. subst leb1.
  apply isort_ext_in. intros a b Ha Hb.
  apply in_seq in Ha, Hb.
  rewrite !nth_map_lt with (d' := (0, 0)) by (rewrite length_map; lia).
  unfold at_index.
  now rewrite !nth_map_lt with (d' := 0%nat) by lia.
Qed.

Lemma mean_y_values points c : mean_y points c = mean_of (take points c).
Proof.
  destruct c as [|i c]; [reflexivity|].
  unfold mean_y, mean_of. cbn [take map length]. now rewrite length_map.
Qed.

(** The program's index computation returns what [order_points] returns. *)
Lemma sort_grid_points_values points r :
  sort_grid_points points r = order_points r points.
Proof.
  unfold sort_grid_points, order_points.
  destruct points as [|p points']; [reflexivity|].
  set (points := p :: points').
  rewrite <- take_argsort_y. unfold take.
  rewrite <- (rows_map (at_index points) py).
  rewrite <- row_clusters_rows.
  unfold mean_leb.
  rewrite <- (isort_map (map (at_index points))
                (fun B1 B2 => Qle_bool (mean_of B1) (mean_of B2))).
  rewrite flat_map_concat_map, (flat_map_concat_map (sort_by_key px)).
  rewrite map_map. f_equal.
  unfold sort_clusters.
  rewrite (isort_ext_in
             (fun c1 c2 => Qle_bool (mean_y points c1) (mean_y points c2))
             (fun a b => Qle_bool (mean_of (map (at_index points) a))
                                  (mean_of (map (at_index points) b)))).
  - apply map_ext. intros c. apply sort_row_values.
  - intros a b _ _. now rewrite !mean_y_values.
Qed.

(** *** The output is a rearrangement of the input *)

Lemma flat_map_perm_concat {A : Type} (f : list A -> list A) Bs :
  (forall B, Permutation (f B) B) ->
  Permutation (flat_map f Bs) (concat Bs).
Proof.
  intros Hf. induction Bs as [|B Bs IH]; simpl; [constructor|].
  apply Permutation_app; [apply Hf|exact IH].
Qed.

Lemma concat_perm {A : Type} (Bs Bs' : list (list A)) :
  Permutation Bs Bs' -> Permutation (concat Bs) (concat Bs').
Proof.
  intros H.
  assert (E : forall l : list (list A), concat l = flat_map (fun B => B) l).
  { intros l. now rewrite flat_map_concat_map, map_id. }
  rewrite !E. now apply Permutation_flat_map.
Qed.

Lemma order_points_perm r points : Permutation (order_points r points) points.
Proof.
  unfold order_points.
  rewrite flat_map_perm_concat
    by (intros B; apply isort_perm).
  rewrite (concat_perm _ _ (isort_perm mean_leb _)).
  rewrite rows_concat. apply isort_perm.
Qed.

(** C10. [sort_grid_points] returns a permutation of its input: the output
    holds the same points with the same multiplicities (none added, dropped,
    duplicated or altered), and the empty input gives the empty output. *)
Theorem sort_grid_points_permutation :
  forall (points : list point) (row_tolerance : Z),
    Permutation points (sort_grid_points points row_tolerance) /\
    length (sort_grid_points points row_tolerance) = length points /\
    sort_grid_points [] row_tolerance = [].
Proof.
  intros points r. rewrite sort_grid_points_values.
  pose proof (order_points_perm r points) as H.
  split; [now symmetry|]. split; [|reflexivity].
  now apply Permutation_length.
Qed.

(** *** Rows of a y-sorted list *)

Section Blocks.
Context {A : Type}.
Variable ky : A -> Z.

Local Abbreviation blocks_ordered := (blocks_ordered ky).

Lemma sorted_blocks_ordered Bs :
  StronglySorted (key_le ky) (concat Bs) ->
  blocks_ordered Bs /\ Forall (StronglySorted (key_le ky)) Bs.
Proof.
  induction Bs as [|B Bs IH]; simpl; intros H.
  - split; [exact I|constructor].
  - apply strongly_sorted_app in H. destruct H as (HB & HBs & Hc).
    destruct (IH HBs) as [Ho Hs].
    split; [split; [exact Hc|exact Ho]|now constructor].
Qed.



Variable r : Z.

Lemma row_chain_nonempty Bs :
  row_chain ky r Bs -> Forall (fun B => B <> []) Bs.
Proof.
  induction 1; repeat constructor; try discriminate.
  now inversion IHrow_chain.
Qed.


End Blocks.

(** *** The rows of a y-sorted list are already in mean order *)

Lemma sum_y_lower B c :
  (forall b, In b B -> c <= py b) -> c * Z.of_nat (length B) <= sum_y B.
Proof.
  unfold sum_y. induction B as [|b B IH]; intros H; [simpl; lia|].
  cbn [map fold_right length]. rewrite Nat2Z.inj_succ.
  specialize (H b (or_introl eq_refl)) as Hb.
  assert (c * Z.of_nat (length B) <= fold_right Z.add 0 (map py B))
    by (apply IH; intros; apply H; now right).
  lia.
Qed.

Lemma sum_y_cross B B' :
  (forall a b, In a B -> In b B' -> py a <= py b) ->
  sum_y B * Z.of_nat (length B') <= sum_y B' * Z.of_nat (length B).
Proof.
  induction B as [|a B IH]; intros H; [unfold sum_y; simpl; lia|].
  assert (H1 : py a * Z.of_nat (length B') <= sum_y B')
    by (apply sum_y_lower; intros; apply H; [now left|assumption]).
  assert (H2 : sum_y B * Z.of_nat (length B') <= sum_y B' * Z.of_nat (length B))
    by (apply IH; intros; apply H; [now right|assumption]).
  unfold sum_y in *. cbn [map fold_right length]. rewrite Nat2Z.inj_succ. lia.
Qed.

Lemma mean_leb_ordered B B' :
  B <> [] -> B' <> [] ->
  (forall a b, In a B -> In b B' -> py a <= py b) ->
  mean_leb B B' = true.
Proof.
  intros HB HB' H. pose proof (sum_y_cross B B' H) as Hc.
  destruct B as [|a B]; [contradiction|].
  destruct B' as [|a' B']; [contradiction|].
  unfold mean_leb, mean_of, Qle_bool. cbn [Qnum Qden].
  apply Z.leb_le.
  cbn [length] in *.
  rewrite <- !Pos.of_nat_succ, !Zpos_P_of_succ_nat, <- !Nat2Z.inj_succ.
  exact Hc.
Qed.

Lemma blocks_mean_sorted Bs :
  Forall (fun B => B <> []) Bs ->
  blocks_ordered py Bs ->
  StronglySorted (le_of mean_leb) Bs.
Proof.
  induction Bs as [|B Bs IH]; intros Hne Ho; [constructor|].
  inversion Hne as [|? ? HB Hne']; subst. destruct Ho as [Hc Ho].
  constructor; [now apply IH|].
  apply Forall_forall. intros B' HB'.
  rewrite Forall_forall in Hne'.
  apply mean_leb_ordered; [exact HB|now apply Hne'|].
  intros a b Ha Hb. apply Hc; [exact Ha|].
  apply in_concat. now exists B'.
Qed.



(** *** Sorting a y-sorted block by x gives its lexicographic order *)





(** *** Idempotence *)


(** *** The clusters of the program *)

Lemma row_clusters_points_rows r points :
  row_clusters_points r points = rows py r (sort_by_key py points).
Proof.
  unfold row_clusters_points. rewrite row_clusters_rows.
  unfold take at 1. rewrite (rows_map (at_index points) py).
  now rewrite <- take_argsort_y.
Qed.

(** The clustering is the only split of the y-sorted points into blocks
    anchored at their first member. *)
Lemma row_clusters_points_unique r points Bs :
  row_chain py r Bs -> concat Bs = sort_by_key py points ->
  Bs = row_clusters_points r points.
Proof.
  intros Hc E. rewrite row_clusters_points_rows, <- E.
  symmetry. now apply chain_rows.
Qed.

(** C3 (amended). The clusters are consecutive blocks of the y-sorted
    points; inside a cluster every later point has a y-gap below the
    tolerance to the cluster's FIRST point (not to the point just before
    it), and a new cluster starts at the first point whose y-gap to the
    current cluster's first point reaches the tolerance; no other split of
    the y-sorted points has these two properties. *)
Theorem row_clusters_first_point_gap :
  forall (points : list point) (row_tolerance : Z),
    concat (row_clusters_points row_tolerance points) = sort_by_key py points /\
    row_chain py row_tolerance (row_clusters_points row_tolerance points) /\
    (forall Bs : list (list point),
        row_chain py row_tolerance Bs ->
        concat Bs = sort_by_key py points ->
        Bs = row_clusters_points row_tolerance points).
Proof.
  intros points r. split; [|split].
  - rewrite row_clusters_points_rows. apply rows_concat.
  - rewrite row_clusters_points_rows. apply rows_chain.
  - intros Bs. apply row_clusters_points_unique.
Qed.

(** Counterexample to C3 as stated: with tolerance 50 and ordinates 0, 30,
    60 every gap to the previous point is 30, so the stated rule keeps one
    cluster, but the program compares 60 with the cluster's first ordinate 0
    and starts a new cluster. *)
Lemma row_clusters_previous_gap_counterexample :
  row_clusters_points 50 [(0, 0); (0, 30); (0, 60)]
    = [[(0, 0); (0, 30)]; [(0, 60)]] /\
  gap_rows 50 (sort_by_key py [(0, 0); (0, 30); (0, 60)])
    = [[(0, 0); (0, 30); (0, 60)]] /\
  row_clusters_points 50 [(0, 0); (0, 30); (0, 60)]
    <> gap_rows 50 (sort_by_key py [(0, 0); (0, 30); (0, 60)]).
Proof.
  split; [reflexivity|]. split; [reflexivity|]. discriminate.
Qed.



Example sort_grid_points_two_rows :
  sort_grid_points [(30, 101); (10, 200); (10, 100); (20, 198); (20, 99)] 50
  = [(10, 100); (20, 99); (30, 101); (10, 200); (20, 198)].
Proof. reflexivity. Qed.

Example row_clusters_anchor :
  row_clusters 50 [(0, 0); (0, 30); (0, 60)] = [[0; 1]; [2]]%nat.
Proof. reflexivity. Qed.

Example sort_grid_points_cex :
  sort_grid_points [(10, 0); (0, 40); (5, 60)] 50 = [(0, 40); (10, 0); (5, 60)].
Proof. reflexivity. Qed.

(** *** Further properties of the ordering *)

Lemma strongly_sorted_map {A B : Type} (g : A -> B) (R : B -> B -> Prop) l :
  StronglySorted R (map g l) -> StronglySorted (fun a b => R (g a) (g b)) l.
Proof.
  induction l as [|a l IH]; intros H; [constructor|].
  cbn [map] in H. apply StronglySorted_inv in H. destruct H as [Hs Ha].
  constructor; [now apply IH|].
  rewrite Forall_map in Ha. exact Ha.
Qed.

(** X1. The sort of the clusters by mean y never reorders them: the row
    clusters are already produced in ascending order, every point of a row
    lying at or below every point of the later rows. *)
Theorem cluster_sort_is_identity :
  forall (points : list point) (row_tolerance : Z),
    sort_clusters points (row_clusters row_tolerance points)
      = row_clusters row_tolerance points /\
    blocks_ordered py (row_clusters_points row_tolerance points).
Proof.
  intros points r.
  assert (HL : StronglySorted (key_le py)
                 (concat (row_clusters_points r points))).
  { rewrite row_clusters_points_rows, rows_concat. apply sort_by_key_sorted. }
  destruct (sorted_blocks_ordered py _ HL) as [Ho _].
  split; [|exact Ho].
  unfold sort_clusters. apply isort_sorted_id.
  assert (Hs : StronglySorted (le_of mean_leb) (row_clusters_points r points)).
  { apply blocks_mean_sorted; [|exact Ho].
    rewrite row_clusters_points_rows.
    eapply row_chain_nonempty, rows_chain. }
  unfold row_clusters_points in Hs. apply strongly_sorted_map in Hs.
  induction Hs as [|c cs Hs IH Hc]; constructor; [exact IH|].
  eapply Forall_impl; [|exact Hc]. intros c' H.
  unfold le_of, mean_leb in *. now rewrite !mean_y_values.
Qed.






(** *** The ordering does not depend on the order of the input *)

Section RowsOfSorted.
Context {A : Type}.
Variable ky : A -> Z.
Variable r : Z.
Hypothesis r_pos : 0 < r.




End RowsOfSorted.




End PointOrderingFacts.

(** ** MarkerLocator *)

Module MarkerLocatorFacts.
Import MarkerLocator.

Example points_scores_scan :
  points_scores [[0.2; 0.9]; [0.7; 0.1]]%Q 0.5%Q
  = [(1, 0, 0.9%Q); (0, 1, 0.7%Q)].
Proof. reflexivity. Qed.

Example apply_nms_manual_two_far :
  apply_nms_manual [[0.9; 0; 0; 0; 0.8]]%Q 0.5%Q 1 2 2 = [(0, 0); (4, 0)].
Proof. reflexivity. Qed.

Example apply_nms_manual_overlap :
  apply_nms_manual [[0.7; 0.9]]%Q 0.5%Q 10 20 20 = [(1, 0)].
Proof. reflexivity. Qed.

(** *** Kept positions come from candidates and keep their distance *)

Lemma survives_separated d best c :
  survives d best c = true -> separated d (position best) (position c).
Proof.
  unfold survives, separated, position. simpl.
  rewrite orb_true_iff, !Z.gtb_lt. lia.
Qed.

Lemma nms_loop_in d cs p :
  In p (nms_loop d cs) -> exists c, In c cs /\ position c = p.
Proof.
  revert p. funelim (nms_loop d cs); intros p Hp.
  - contradiction.
  - simp nms_loop in Hp. destruct Hp as [<-|Hp].
    + exists best. split; [now left|reflexivity].
    + match goal with
      | IH : forall p, In p (nms_loop _ _) -> _ |- _ =>
        destruct (IH p Hp) as (c & Hc & E)
      end.
      apply filter_In in Hc. exists c. split; [now right|exact E].
Qed.

Lemma nms_loop_separated d cs :
  ForallOrdPairs (separated d) (nms_loop d cs).
Proof.
  funelim (nms_loop d cs); simp nms_loop.
  - constructor.
  - constructor; [|assumption].
    apply Forall_forall. intros p Hp.
    apply nms_loop_in in Hp. destruct Hp as (c & Hc & <-).
    apply filter_In in Hc. now apply survives_separated.
Qed.

(** *** The loop is the greedy selection by descending score *)

Lemma score_geb_total a b : score_geb a b = true \/ score_geb b a = true.
Proof.
  unfold score_geb. rewrite !Qle_bool_iff.
  destruct (Qlt_le_dec (cand_score a) (cand_score b)) as [H|H];
    [right; now apply Qlt_le_weak|now left].
Qed.

Lemma score_geb_trans a b c :
  score_geb a b = true -> score_geb b c = true -> score_geb a c = true.
Proof.
  unfold score_geb. rewrite !Qle_bool_iff. intros H1 H2.
  eapply Qle_trans; eauto.
Qed.

(** The head of the sorted list is the best candidate, the earliest found
    among those of equal score; the tail is the sorted list of the others. *)
Lemma take_best_sort cs :
  forall c,
    sort_by_score (c :: cs)
    = fst (take_best c cs) :: sort_by_score (snd (take_best c cs)).
Proof.
  unfold sort_by_score.
  induction cs as [|c' cs IH]; intros c; [reflexivity|].
  pose proof (IH c') as E. clear IH.
  cbn [take_best]. change (isort score_geb (c :: c' :: cs))
    with (insert score_geb c (isort score_geb (c' :: cs))).
  destruct (take_best c' cs) as [b others]. cbn [fst snd] in E.
  rewrite E. cbn [insert]. unfold score_geb at 1.
  destruct (Qle_bool (cand_score b) (cand_score c)); cbn [fst snd].
  - now rewrite E.
  - reflexivity.
Qed.

Lemma survives_not_within d best c :
  survives d best c = negb (within d best c).
Proof.
  unfold survives, within. rewrite negb_andb, !Z.gtb_ltb, !Z.leb_antisym.
  now rewrite !negb_involutive.
Qed.

Lemma suppress_greedy d cs : suppress d cs = greedy_suppression d cs.
Proof.
  funelim (greedy_suppression d cs); simp greedy_suppression.
  - reflexivity.
  - unfold suppress in *. rewrite take_best_sort. simp nms_loop.
    f_equal.
    rewrite (filter_ext _ _ (survives_not_within nms_distance _)).
    unfold sort_by_score.
    rewrite (isort_filter score_geb score_geb_total score_geb_trans).
    assumption.
Qed.

(** C5. The suppression is greedy by descending score: it is the procedure
    that repeatedly keeps the highest-scoring remaining candidate and removes
    the remaining candidates with |dx| <= nms_distance and |dy| <=
    nms_distance; two candidates at one location with scores 0.9 and 0.7 and
    nms_distance 10 leave exactly one marker, at that location. *)
Theorem apply_nms_manual_greedy :
  (forall (res : list (list Q)) (threshold : Q) (nms_distance w h : Z),
      apply_nms_manual res threshold nms_distance w h
      = greedy_suppression nms_distance (points_scores res threshold)) /\
  (forall x y : Z,
      suppress 10 [(x, y, 0.9%Q); (x, y, 0.7%Q)] = [(x, y)] /\
      suppress 10 [(x, y, 0.7%Q); (x, y, 0.9%Q)] = [(x, y)]).
Proof.
  split.
  - intros res thr d w h. unfold apply_nms_manual.
    rewrite <- suppress_greedy.
    destruct (points_scores res thr); reflexivity.
  - intros x y. rewrite !suppress_greedy. simp greedy_suppression.
    cbn [take_best fst snd cand_score].
    change (Qle_bool 0.7 0.9) with true. change (Qle_bool 0.9 0.7) with false.
    cbn [fst snd filter]. unfold within, position, cand_x, cand_y.
    cbn [fst snd]. rewrite !Z.sub_diag. cbn [Z.abs Z.leb Z.compare andb negb].
    simp greedy_suppression. split; reflexivity.
Qed.

(** C4. Every pair of distinct markers kept by the suppression of [tm_task]
    lies further apart than [nms_distance = min(w, h) // 2] in the Chebyshev
    distance, whatever the score surface, the template size and the
    threshold. *)
Theorem kept_markers_separated :
  forall (res : list (list Q)) (tm_threshold : Q) (w h : Z),
    ForallOrdPairs
      (fun p q =>
         Z.max (Z.abs (fst p - fst q)) (Z.abs (snd p - snd q)) > Z.min w h / 2)
      (tm_final_points res tm_threshold w h).
Proof.
  intros res thr w h. unfold tm_final_points, apply_nms_manual.
  destruct (points_scores res thr) as [|c cs]; [constructor|].
  apply (nms_loop_separated (tm_nms_distance w h)).
Qed.

(** *** Further properties of the suppression *)

Lemma in_combine_indices {A : Type} (l : list A) :
  forall k z v,
    In (z, v) (combine (map Z.of_nat (seq k (length l))) l) ->
    exists i, z = Z.of_nat (k + i) /\ nth_error l i = Some v.
Proof.
  induction l as [|a l IH]; intros k z v H; [contradiction|].
  cbn [length seq map combine] in H. destruct H as [H|H].
  - injection H as <- <-. exists 0%nat. rewrite Nat.add_0_r. now split.
  - apply IH in H. destruct H as (i & -> & Hi).
    exists (S i). split; [f_equal; lia|exact Hi].
Qed.

(** A candidate is an entry of the score surface that reaches the
    threshold, under its column and row. *)
Lemma points_scores_in res threshold c :
  In c (points_scores res threshold) ->
  exists (i j : nat) (row : list Q),
    cand_x c = Z.of_nat j /\ cand_y c = Z.of_nat i /\
    nth_error res i = Some row /\ nth_error row j = Some (cand_score c) /\
    Qle_bool threshold (cand_score c) = true.
Proof.
  unfold points_scores, indices. intros H.
  apply in_flat_map in H. destruct H as ([y row] & Hy & H).
  apply in_combine_indices in Hy. destruct Hy as (i & -> & Hi).
  cbn [fst snd] in H. unfold row_candidates, indices in H.
  apply filter_In in H. destruct H as [H Hs].
  apply in_map_iff in H. destruct H as ([x s] & <- & Hx).
  apply in_combine_indices in Hx. destruct Hx as (j & -> & Hj).
  exists i, j, row. unfold cand_x, cand_y, cand_score in *. cbn [fst snd] in *.
  repeat split; auto.
Qed.

Lemma apply_nms_manual_in res threshold d w h p :
  In p (apply_nms_manual res threshold d w h) ->
  exists c, In c (points_scores res threshold) /\ position c = p.
Proof.
  unfold apply_nms_manual, suppress. intros H.
  destruct (points_scores res threshold) as [|c0 cs] eqn:E; [contradiction|].
  apply nms_loop_in in H. destruct H as (c & Hc & Hp).
  exists c. split; [|exact Hp]. now apply isort_in in Hc.
Qed.

(** A returned position is the column and row of an entry of the surface
    that reaches the threshold. *)
Lemma apply_nms_manual_entry res threshold d w h p :
  In p (apply_nms_manual res threshold d w h) ->
  exists (i j : nat) (row : list Q) (score : Q),
    p = (Z.of_nat j, Z.of_nat i) /\
    nth_error res i = Some row /\ nth_error row j = Some score /\
    Qle_bool threshold score = true.
Proof.
  intros H.
  apply apply_nms_manual_in in H. destruct H as (c & Hc & <-).
  apply points_scores_in in Hc.
  destruct Hc as (i & j & row & Hx & Hy & Hi & Hj & Hs).
  exists i, j, row, (cand_score c). unfold position. rewrite Hx, Hy. auto.
Qed.

(** X5. Every marker that [apply_nms_manual] returns is the column and row
    of an entry of the score surface whose score reaches the threshold: no
    position outside the surface or below the threshold is ever returned. *)
Theorem kept_markers_reach_threshold :
  forall (res : list (list Q)) (threshold : Q) (nms_distance w h : Z)
         (p : Z * Z),
    In p (apply_nms_manual res threshold nms_distance w h) ->
    exists (i j : nat) (row : list Q) (score : Q),
      p = (Z.of_nat j, Z.of_nat i) /\
      nth_error res i = Some row /\ nth_error row j = Some score /\
      Qle_bool threshold score = true.
Proof.
  intros res thr d w h p H. eapply apply_nms_manual_entry; eauto.
Qed.

Lemma kept_markers_reach_threshold_witness :
  exists (i j : nat) (row : list Q) (score : Q),
    (1, 0) = (Z.of_nat j, Z.of_nat i) /\
    nth_error [[0.7; 0.9]]%Q i = Some row /\ nth_error row j = Some score /\
    Qle_bool 0.5 score = true.
Proof.
  apply (kept_markers_reach_threshold [[0.7; 0.9]]%Q 0.5%Q 10 20 20 (1, 0)).
  vm_compute. left. reflexivity.
Defined.

Lemma score_geb_refl c : score_geb c c = true.
Proof. unfold score_geb. apply Qle_bool_iff. apply Qle_refl. Qed.

Lemma nms_loop_covers d cs :
  0 <= d ->
  StronglySorted (le_of score_geb) cs ->
  forall c, In c cs ->
    exists b, In b cs /\ In (position b) (nms_loop d cs) /\
              within d b c = true /\ score_geb b c = true.
Proof.
  intros Hd. funelim (nms_loop d cs); intros Hs c Hc; [contradiction|].
  simp nms_loop. apply StronglySorted_inv in Hs. destruct Hs as [Hs Hb].
  destruct Hc as [<-|Hc].
  - exists best. split; [now left|]. split; [now left|].
    split; [|apply score_geb_refl].
    unfold within. rewrite !Z.sub_diag. cbn [Z.abs].
    apply andb_true_iff. split; now apply Z.leb_le.
  - destruct (survives nms_distance best c) eqn:E.
    + assert (Hin : In c (filter (survives nms_distance best) rest))
        by (apply filter_In; now split).
      match goal with
      | IH : _ -> StronglySorted _ _ -> _ |- _ =>
        destruct (IH Hd (filter_sorted _ _ _ Hs) c Hin)
          as (b & Hb1 & Hb2 & Hb3 & Hb4)
      end.
      exists b. apply filter_In in Hb1.
      split; [right; tauto|]. split; [now right|]. split; assumption.
    + exists best. split; [now left|]. split; [now left|].
      rewrite survives_not_within in E. apply negb_false_iff in E.
      split; [exact E|]. rewrite Forall_forall in Hb. now apply Hb.
Qed.

(** X6. With a non-negative suppression distance every candidate is either
    kept or lies within the distance, in both axes, of a kept candidate
    whose score is at least as high. *)
Theorem candidates_are_covered :
  forall (res : list (list Q)) (threshold : Q) (nms_distance w h : Z)
         (c : candidate),
    0 <= nms_distance ->
    In c (points_scores res threshold) ->
    exists b,
      In b (points_scores res threshold) /\
      In (position b) (apply_nms_manual res threshold nms_distance w h) /\
      Z.abs (cand_x c - cand_x b) <= nms_distance /\
      Z.abs (cand_y c - cand_y b) <= nms_distance /\
      (cand_score c <= cand_score b)%Q.
Proof.
  intros res thr d w h c Hd Hc. unfold apply_nms_manual, suppress.
  destruct (points_scores res thr) as [|c0 cs] eqn:E; [contradiction|].
  rewrite <- E in *. clear E c0 cs.
  destruct (nms_loop_covers d (sort_by_score (points_scores res thr)) Hd
              (isort_sorted score_geb score_geb_total score_geb_trans _) c)
    as (b & Hb1 & Hb2 & Hb3 & Hb4).
  { now apply isort_in. }
  exists b. apply isort_in in Hb1. split; [exact Hb1|]. split; [exact Hb2|].
  unfold within in Hb3. apply andb_true_iff in Hb3.
  rewrite !Z.leb_le in Hb3. unfold score_geb in Hb4.
  apply Qle_bool_iff in Hb4. tauto.
Qed.

Lemma candidates_are_covered_witness :
  exists b,
    In b (points_scores [[0.7; 0.9]]%Q 0.5%Q) /\
    In (position b) (apply_nms_manual [[0.7; 0.9]]%Q 0.5%Q 10 20 20) /\
    Z.abs (cand_x ((0, 0, 0.7%Q) : candidate) - cand_x b) <= 10 /\
    Z.abs (cand_y ((0, 0, 0.7%Q) : candidate) - cand_y b) <= 10 /\
    (cand_score (0%Z, 0%Z, 0.7) <= cand_score b)%Q.
Proof.
  apply (candidates_are_covered [[0.7; 0.9]]%Q 0.5%Q 10 20 20 ((0, 0, 0.7%Q) : candidate)).
  - lia.
  - vm_compute. left. reflexivity.
Defined.



Lemma nms_loop_length d cs : (length (nms_loop d cs) <= length cs)%nat.
Proof.
  funelim (nms_loop d cs); cbn [length]; [lia|].
  pose proof (filter_length_le (survives nms_distance best) rest). lia.
Qed.

Lemma separated_nodup d l :
  0 <= d -> ForallOrdPairs (separated d) l -> NoDup l.
Proof.
  intros Hd. induction 1 as [|p l Hp Hl IH]; constructor; [|exact IH].
  intros Hin. rewrite Forall_forall in Hp. specialize (Hp p Hin).
  unfold separated in Hp. rewrite !Z.sub_diag in Hp. simpl in Hp. lia.
Qed.

(** X8. With a non-negative suppression distance no position is returned
    twice, and there are never more markers than candidates. *)
Theorem markers_are_distinct :
  forall (res : list (list Q)) (threshold : Q) (nms_distance w h : Z),
    0 <= nms_distance ->
    NoDup (apply_nms_manual res threshold nms_distance w h) /\
    (length (apply_nms_manual res threshold nms_distance w h)
     <= length (points_scores res threshold))%nat.
Proof.
  intros res thr d w h Hd. unfold apply_nms_manual, suppress.
  destruct (points_scores res thr) as [|c cs] eqn:E.
  - split; [constructor|reflexivity].
  - split.
    + apply (separated_nodup d _ Hd), nms_loop_separated.
    + rewrite <- (isort_length score_geb (c :: cs)). apply nms_loop_length.
Qed.

Lemma markers_are_distinct_witness :
  NoDup (apply_nms_manual [[0.9; 0; 0; 0; 0.8]]%Q 0.5%Q 1 2 2) /\
  (length (apply_nms_manual [[0.9; 0; 0; 0; 0.8]]%Q 0.5%Q 1 2 2)
   <= length (points_scores [[0.9; 0; 0; 0; 0.8]]%Q 0.5%Q))%nat.
Proof.
  apply markers_are_distinct. lia.
Defined.

(** *** The template region and the task *)

Lemma template_region_bounds img_w img_h x y w h x' y' w' h' :
  template_region img_w img_h x y w h = Some (x', y', w', h') ->
  0 <= x' /\ 0 <= y' /\ 0 < w' <= w /\ 0 < h' <= h /\
  x' + w' <= img_w /\ y' + h' <= img_h.
Proof.
  unfold template_region.
  destruct (_ || _) eqn:E; [discriminate|].
  intros [= <- <- <- <-]. apply orb_false_iff in E.
  rewrite !Z.leb_gt in E. lia.
Qed.

(** X9. A template region that [tm_task] accepts lies inside the image and
    is not empty; it is never larger than the selected rectangle, and the
    suppression distance derived from it is not negative. *)
Theorem template_region_inside :
  forall (img_w img_h x y w h x' y' w' h' : Z),
    template_region img_w img_h x y w h = Some (x', y', w', h') ->
    0 <= x' /\ 0 <= y' /\ 0 < w' <= w /\ 0 < h' <= h /\
    x' + w' <= img_w /\ y' + h' <= img_h /\
    0 <= tm_nms_distance w' h'.
Proof.
  intros W H x y w h x' y' w' h'. unfold template_region, tm_nms_distance.
  destruct (_ || _) eqn:E; [discriminate|].
  intros [= <- <- <- <-]. apply orb_false_iff in E.
  rewrite !Z.leb_gt in E. destruct E as [Hw Hh].
  assert (0 <= Z.min (Z.min w (W - Z.max 0 x)) (Z.min h (H - Z.max 0 y)) / 2)
    by (apply Z.div_pos; lia).
  repeat split; try lia; assumption.
Qed.

Lemma template_region_inside_witness :
  0 <= 0 /\ 0 <= 30 /\ 0 < 20 <= 20 /\ 0 < 10 <= 25 /\
  0 + 20 <= 100 /\ 30 + 10 <= 40 /\ 0 <= tm_nms_distance 20 10.
Proof.
  apply (template_region_inside 100 40 (-7) 30 20 25 0 30 20 10).
  reflexivity.
Defined.

(** X10. [tm_task] rejects a rectangle exactly when its width or height is
    not positive or its corner, moved to non-negative coordinates, lies at
    or beyond the right or the bottom edge of the image; a rectangle that
    lies inside the image is used unchanged. *)
Theorem template_region_rejected :
  forall (img_w img_h x y w h : Z),
    (template_region img_w img_h x y w h = None <->
     w <= 0 \/ h <= 0 \/ img_w <= Z.max 0 x \/ img_h <= Z.max 0 y) /\
    (0 <= x -> 0 <= y -> 0 < w -> 0 < h ->
     x + w <= img_w -> y + h <= img_h ->
     template_region img_w img_h x y w h = Some (x, y, w, h)).
Proof.
  intros W H x y w h. unfold template_region. split.
  - destruct (_ || _) eqn:E.
    + apply orb_true_iff in E. rewrite !Z.leb_le in E.
      split; [intros _; lia|reflexivity].
    + apply orb_false_iff in E. rewrite !Z.leb_gt in E.
      split; [discriminate|lia].
  - intros Hx Hy Hw Hh Hxw Hyh.
    rewrite !Z.max_r by lia. rewrite !Z.min_l by lia.
    replace (w <=? 0) with false by (symmetry; apply Z.leb_gt; lia).
    replace (h <=? 0) with false by (symmetry; apply Z.leb_gt; lia).
    reflexivity.
Qed.

(** The markers of [tm_task] on a surface of the size of a template
    correlation: their boxes lie inside the image. *)
Lemma tm_task_inside matchTemplate img_w img_h x y w h tm_threshold r :
  (forall x' y' w' h',
      template_region img_w img_h x y w h = Some (x', y', w', h') ->
      surface_shape (matchTemplate x' y' w' h')
                    (img_h - h' + 1) (img_w - w' + 1)) ->
  tm_task matchTemplate img_w img_h x y w h tm_threshold = Some r ->
  matched_regions_count r = length (final_points r) /\
  0 < template_w r /\ 0 < template_h r /\
  forall p, In p (final_points r) ->
            0 <= fst p /\ fst p + template_w r <= img_w /\
            0 <= snd p /\ snd p + template_h r <= img_h.
Proof.
  set (mt := matchTemplate). set (W := img_w). set (H := img_h).
  set (thr := tm_threshold).
  intros Hshape Ht. unfold tm_task in Ht.
  destruct (template_region W H x y w h) as [[[[x' y'] w'] h']|] eqn:E;
    [|discriminate].
  injection Ht as <-. cbn [matched_regions_count final_points
                           template_w template_h].
  destruct (template_region_bounds _ _ _ _ _ _ _ _ _ _ E)
    as (_ & _ & Hw & Hh & _).
  split; [reflexivity|]. split; [lia|]. split; [lia|].
  intros p Hp. apply apply_nms_manual_entry in Hp.
  destruct Hp as (i & j & row & s & -> & Hi & Hj & _).
  destruct (Hshape x' y' w' h' eq_refl) as [Hrows Hcols].
  assert (Hilt : (i < length (mt x' y' w' h'))%nat)
    by (apply nth_error_Some; congruence).
  assert (Hrow : Z.of_nat (length row) = W - w' + 1).
  { rewrite Forall_forall in Hcols. apply Hcols.
    eapply nth_error_In; eauto. }
  assert (Hjlt : (j < length row)%nat)
    by (apply nth_error_Some; congruence).
  cbn [fst snd]. lia.
Qed.

(** X11. When the score surface has the size of a template correlation
    ([img_h - h + 1] rows of [img_w - w + 1] scores), the count returned by
    [tm_task] is the number of markers and every marker's template box lies
    inside the image. *)
Theorem tm_task_boxes_inside :
  forall (matchTemplate : Z -> Z -> Z -> Z -> list (list Q))
         (img_w img_h x y w h : Z) (tm_threshold : Q) (r : tm_result),
    (forall x' y' w' h',
        template_region img_w img_h x y w h = Some (x', y', w', h') ->
        surface_shape (matchTemplate x' y' w' h')
                      (img_h - h' + 1) (img_w - w' + 1)) ->
    tm_task matchTemplate img_w img_h x y w h tm_threshold = Some r ->
    matched_regions_count r = length (final_points r) /\
    0 < template_w r /\ 0 < template_h r /\
    forall p, In p (final_points r) ->
              0 <= fst p /\ fst p + template_w r <= img_w /\
              0 <= snd p /\ snd p + template_h r <= img_h.
Proof.
  intros mt W H x y w h thr r Hshape Ht.
  eapply tm_task_inside; eauto.
Qed.

Lemma tm_task_boxes_inside_witness :
  let r := mk_tm_result 2 [(1, 0); (0, 0)] 2 1 in
  matched_regions_count r = length (final_points r) /\
  0 < template_w r /\ 0 < template_h r /\
  forall p, In p (final_points r) ->
            0 <= fst p /\ fst p + template_w r <= 3 /\
            0 <= snd p /\ snd p + template_h r <= 1.
Proof.
  apply (tm_task_boxes_inside (fun _ _ _ _ => [[0.7; 0.9]]%Q)
           3 1 0 0 2 1 0.5%Q).
  - intros x' y' w' h' E. vm_compute in E. injection E as <- <- <- <-.
    split; [reflexivity|]. repeat constructor.
  - reflexivity.
Defined.

End MarkerLocatorFacts.

(** ** CenterExtractor *)

Module CenterExtractorFacts.
Import PointOrdering CenterExtractor.

(** *** The reported centre is truncated *)






(** *** Deduplication: the mask loop *)

Lemma dedup_step_length c mask i :
  length (dedup_step c mask i) = length mask.
Proof.
  unfold dedup_step. destruct (nth i mask false); [|reflexivity].
  now rewrite length_map, length_seq.
Qed.

Lemma dedup_step_nth c mask i j :
  (j < length mask)%nat ->
  nth j (dedup_step c mask i) false
  = if nth i mask false && (i <? j)%nat && nth j mask false
       && close (at_index c i) (at_index c j)
    then false else nth j mask false.
Proof.
  intros Hj. unfold dedup_step.
  destruct (nth i mask false); [|reflexivity].
  rewrite nth_map_lt with (d' := 0%nat) by now rewrite length_seq.
  rewrite seq_nth by exact Hj. reflexivity.
Qed.

Lemma nth_repeat_true n j : (j < n)%nat -> nth j (repeat true n) false = true.
Proof.
  intros Hj. rewrite nth_indep with (d' := true) by now rewrite repeat_length.
  apply nth_repeat.
Qed.

Lemma dedup_inv_start c k :
  (forall i j, (i < k)%nat -> (i < j)%nat -> (j < length c)%nat -> False) ->
  dedup_inv c k (repeat true (length c)).
Proof.
  intros Hk. split; [apply repeat_length|]. split.
  - intros i j Hi Hij Hj _ _. destruct (Hk i j Hi Hij Hj).
  - intros j Hj H. rewrite nth_repeat_true in H by exact Hj. discriminate.
Qed.

Lemma dedup_inv_step c k mask :
  (k < length c)%nat ->
  dedup_inv c k mask -> dedup_inv c (S k) (dedup_step c mask k).
Proof.
  intros Hk (Hlen & Hb & Hc).
  assert (Hnth : forall j, (j < length c)%nat ->
            nth j (dedup_step c mask k) false
            = if nth k mask false && (k <? j)%nat && nth j mask false
                 && close (at_index c k) (at_index c j)
              then false else nth j mask false)
    by (intros j Hj; apply dedup_step_nth; lia).
  assert (Hlow : forall j, (j <= k)%nat ->
            nth j (dedup_step c mask k) false = nth j mask false).
  { intros j Hj. rewrite Hnth by lia.
    replace (k <? j)%nat with false by (symmetry; apply Nat.ltb_ge; lia).
    now rewrite andb_false_r. }
  split; [now rewrite dedup_step_length|]. split.
  - intros i j Hi Hij Hj Hki Hcl. rewrite Hlow in Hki by lia.
    rewrite Hnth by exact Hj.
    destruct (nth j mask false) eqn:Ej;
      [|now destruct (_ && _ && _ && _)].
    assert (i = k) as ->.
    { destruct (Nat.eq_dec i k) as [E|E]; [exact E|].
      rewrite (Hb i j) in Ej by (auto; lia). discriminate. }
    rewrite Hki, Hcl. replace (k <? j)%nat with true
      by (symmetry; now apply Nat.ltb_lt).
    reflexivity.
  - intros j Hj Hkj. rewrite Hnth in Hkj by exact Hj.
    destruct (nth j mask false) eqn:Ej.
    + destruct (nth k mask false) eqn:Ek; [|discriminate].
      destruct (k <? j)%nat eqn:Elt; [|discriminate].
      destruct (close (at_index c k) (at_index c j)) eqn:Ecl; [|discriminate].
      apply Nat.ltb_lt in Elt. exists k.
      rewrite Hlow by lia. repeat split; auto.
    + destruct (Hc j Hj Ej) as (i & Hij & Hik & Hi & Hcl).
      exists i. rewrite Hlow by lia. repeat split; auto.
Qed.

Lemma dedup_inv_fold c m :
  forall k mask,
    (k + m <= length c)%nat ->
    dedup_inv c k mask ->
    dedup_inv c (k + m) (fold_left (dedup_step c) (seq k m) mask).
Proof.
  induction m as [|m IH]; intros k mask Hk Hinv; cbn [seq fold_left].
  - now rewrite Nat.add_0_r.
  - rewrite <- Nat.add_succ_comm. apply IH; [lia|].
    apply dedup_inv_step; [lia|exact Hinv].
Qed.

Lemma dedup_mask_inv c : dedup_inv c (length c) (dedup_mask c).
Proof.
  unfold dedup_mask. destruct (1 <? length c)%nat eqn:E.
  - apply (dedup_inv_fold c (length c) 0); [lia|].
    apply dedup_inv_start. intros; lia.
  - apply Nat.ltb_ge in E. apply dedup_inv_start. intros; lia.
Qed.

(** *** Selection by a mask *)

Lemma select_in {A : Type} (d : A) mask l q :
  In q (select mask l) ->
  exists j, (j < length l)%nat /\ nth j mask false = true /\ nth j l d = q.
Proof.
  revert l. induction mask as [|b mask IH]; intros l H; [contradiction|].
  destruct l as [|x l]; [contradiction|]. cbn [select] in H.
  destruct b.
  - destruct H as [<-|H].
    + exists 0%nat. simpl. repeat split. lia.
    + destruct (IH l H) as (j & Hj & Hm & Hq).
      exists (S j). simpl. repeat split; auto. lia.
  - destruct (IH l H) as (j & Hj & Hm & Hq).
    exists (S j). simpl. repeat split; auto. lia.
Qed.

Lemma select_pairs {A : Type} (d : A) (R : A -> A -> Prop) mask l :
  (forall i j, (i < j)%nat -> (j < length l)%nat ->
               nth i mask false = true -> nth j mask false = true ->
               R (nth i l d) (nth j l d)) ->
  ForallOrdPairs R (select mask l).
Proof.
  revert l. induction mask as [|b mask IH]; intros l H; [constructor|].
  destruct l as [|x l]; [constructor|]. cbn [select].
  assert (Htl : ForallOrdPairs R (select mask l)).
  { apply IH. intros i j Hij Hj Hi Hj'.
    apply (H (S i) (S j)); simpl; auto; lia. }
  destruct b; [|exact Htl].
  constructor; [|exact Htl].
  apply Forall_forall. intros q Hq.
  destruct (select_in d mask l q Hq) as (j & Hj & Hm & <-).
  apply (H 0%nat (S j)); simpl; auto; lia.
Qed.


Example unique_centroids_first_seen :
  unique_centroids [(0, 0); (3, 3); (3, 4); (100, 100)]
  = [(0, 0); (3, 4); (100, 100)].
Proof. reflexivity. Qed.

(** *** Windows *)

(** X12. The window that [ce_task] searches for a marker is never empty
    and lies inside the image; a marker whose box misses the image yields
    no centre, and a marker whose box lies inside the image is searched
    over its whole box. *)
Theorem region_window_inside :
  forall (findContours : Z -> Z -> Z -> Z -> list contour)
         (img_w img_h tm_w tm_h : Z) (min_area min_circularity : Q)
         (pt : point),
    match region_window img_w img_h tm_w tm_h pt with
    | None =>
      region_centroids findContours img_w img_h tm_w tm_h
                       min_area min_circularity pt = []
    | Some (y1, y2, x1, x2) =>
      0 <= y1 < y2 /\ y2 <= img_h /\ 0 <= x1 < x2 /\ x2 <= img_w /\
      region_centroids findContours img_w img_h tm_w tm_h
                       min_area min_circularity pt
      = flat_map (fun c =>
                    match contour_center x1 y1 min_area min_circularity c with
                    | Some p => [p]
                    | None => []
                    end)
                 (findContours y1 y2 x1 x2)
    end /\
    (0 < tm_w -> 0 < tm_h ->
     0 <= px pt -> px pt + tm_w <= img_w ->
     0 <= py pt -> py pt + tm_h <= img_h ->
     region_window img_w img_h tm_w tm_h pt
     = Some (py pt, py pt + tm_h, px pt, px pt + tm_w)).
Proof.
  intros fc W H tw th a k pt. unfold region_window, region_centroids. split.
  - destruct (_ || _) eqn:E; [reflexivity|].
    apply orb_false_iff in E. destruct E as [E1 E2].
    rewrite Z.geb_leb in E1, E2. apply Z.leb_gt in E1, E2.
    repeat split; try lia; reflexivity.
  - intros Hw Hh Hx Hxw Hy Hyh.
    rewrite !Z.max_r by lia. rewrite !Z.min_r by lia.
    replace (py pt >=? py pt + th) with false
      by (symmetry; rewrite Z.geb_leb; apply Z.leb_gt; lia).
    replace (px pt >=? px pt + tw) with false
      by (symmetry; rewrite Z.geb_leb; apply Z.leb_gt; lia).
    reflexivity.
Qed.

(** *** Deduplication, once more *)

Lemma ordpairs_nth {A : Type} (d : A) (R : A -> A -> Prop) l :
  ForallOrdPairs R l ->
  forall i j, (i < j)%nat -> (j < length l)%nat ->
              R (nth i l d) (nth j l d).
Proof.
  induction 1 as [|a l Ha Hl IH]; intros i j Hij Hj; [simpl in Hj; lia|].
  destruct j as [|j]; [lia|]. cbn [length] in Hj.
  destruct i as [|i]; cbn [nth].
  - rewrite Forall_forall in Ha. apply Ha. apply nth_In. lia.
  - apply IH; lia.
Qed.

Lemma ordpairs_perm {A : Type} (R : A -> A -> Prop) l l' :
  (forall a b, R a b -> R b a) ->
  Permutation l l' -> ForallOrdPairs R l -> ForallOrdPairs R l'.
Proof.
  intros Hsym. induction 1 as [|x l l' HP IH|x y l|l l' l'' H1 IH1 H2 IH2];
    intros H.
  - constructor.
  - inversion H as [|? ? Hx Hl]; subst. constructor; [|now apply IH].
    rewrite Forall_forall in Hx |- *. intros b Hb. apply Hx.
    eapply Permutation_in; [symmetry; exact HP|exact Hb].
  - inversion H as [|? ? Hy Hl]; subst.
    inversion Hl as [|? ? Hx Hl']; subst.
    inversion Hy as [|? ? Hyx Hy']; subst.
    constructor; [constructor; [now apply Hsym|exact Hx]|].
    constructor; assumption.
  - auto.
Qed.

Lemma select_all_true {A : Type} (l : list A) :
  select (repeat true (length l)) l = l.
Proof. induction l as [|a l IH]; simpl; [reflexivity|]. now rewrite IH. Qed.

(** The survivors are pairwise far apart. *)
Lemma unique_centroids_far c :
  ForallOrdPairs far_apart (unique_centroids c).
Proof.
  destruct (dedup_mask_inv c) as (Hlen & Hb & _).
  assert (E : unique_centroids c = select (dedup_mask c) c)
    by (destruct c; reflexivity).
  rewrite E. apply (select_pairs (0, 0)).
  intros i j Hij Hj Hi Hj'.
  destruct (close (at_index c i) (at_index c j)) eqn:Ecl.
  - assert (Hi' : (i < length c)%nat) by (eapply Nat.lt_trans; eassumption).
    rewrite (Hb i j Hi' Hij Hj Hi Ecl) in Hj'. discriminate.
  - unfold close in Ecl. apply Z.ltb_ge in Ecl. exact Ecl.
Qed.

Lemma far_apart_fixed c :
  ForallOrdPairs far_apart c -> unique_centroids c = c.
Proof.
  intros Hfar.
  destruct (dedup_mask_inv c) as (Hlen & _ & Hc).
  assert (E : unique_centroids c = select (dedup_mask c) c)
    by (destruct c; reflexivity).
  rewrite E.
  assert (Hm : dedup_mask c = repeat true (length c)).
  { apply nth_ext with (d := false) (d' := false).
    - now rewrite repeat_length.
    - intros j Hj. rewrite Hlen in Hj. rewrite nth_repeat_true by exact Hj.
      destruct (nth j (dedup_mask c) false) eqn:Ej; [reflexivity|].
      destruct (Hc j Hj Ej) as (i & Hij & _ & _ & Hcl).
      pose proof (ordpairs_nth (0, 0) far_apart c Hfar i j Hij Hj) as Hf.
      unfold far_apart in Hf. unfold close, at_index in Hcl.
      apply Z.ltb_lt in Hcl. exfalso.
      exact (Z.lt_irrefl _ (Z.le_lt_trans _ _ _ Hf Hcl)). }
  rewrite Hm. apply select_all_true.
Qed.

(** X13. The deduplication leaves a list of centres that are pairwise at
    least 5.0 apart unchanged; applying it twice gives the same as applying
    it once; and it always keeps the first centre of the list. *)
Theorem dedup_idempotent :
  forall centroids : list point,
    (ForallOrdPairs far_apart centroids ->
     unique_centroids centroids = centroids) /\
    unique_centroids (unique_centroids centroids)
      = unique_centroids centroids /\
    hd_error (unique_centroids centroids) = hd_error centroids.
Proof.
  intros c. split; [apply far_apart_fixed|]. split.
  - apply far_apart_fixed, unique_centroids_far.
  - destruct c as [|p c]; [reflexivity|].
    destruct (dedup_mask_inv (p :: c)) as (Hlen & _ & Hc).
    unfold unique_centroids.
    destruct (dedup_mask (p :: c)) as [|b m] eqn:E; [discriminate|].
    destruct b; [reflexivity|].
    destruct (Hc 0%nat) as (i & Hi & _); [simpl; lia|reflexivity|lia].
Qed.

(** *** The output of the task *)

Lemma far_apart_sym p q : far_apart p q -> far_apart q p.
Proof. unfold far_apart, dist_sq. intros H. lia. Qed.

(** X14. The count returned by [ce_task] is the number of coordinates it
    returns; these are the deduplicated centres in another order, so any
    two of them are at least 5.0 apart; and without markers the task
    returns the count 0 and no coordinates. *)
Theorem ce_task_output :
  forall (findContours : Z -> Z -> Z -> Z -> list contour)
         (img_w img_h : Z) (tm_points : list point) (tm_w tm_h : Z)
         (a_thresh c_thresh : Q),
    fst (ce_task findContours img_w img_h tm_points tm_w tm_h
                 a_thresh c_thresh)
    = length (snd (ce_task findContours img_w img_h tm_points tm_w tm_h
                           a_thresh c_thresh)) /\
    Permutation
      (snd (ce_task findContours img_w img_h tm_points tm_w tm_h
                    a_thresh c_thresh))
      (unique_centroids
         (flat_map (region_centroids findContours img_w img_h tm_w tm_h
                                     a_thresh c_thresh) tm_points)) /\
    ForallOrdPairs far_apart
      (snd (ce_task findContours img_w img_h tm_points tm_w tm_h
                    a_thresh c_thresh)) /\
    ce_task findContours img_w img_h [] tm_w tm_h a_thresh c_thresh
    = (0%nat, []).
Proof.
  intros fc W H pts tw th a k. unfold ce_task. cbn [fst snd].
  set (u := unique_centroids _).
  assert (HP : Permutation
                 (if (0 <? length u)%nat
                  then sort_grid_points u default_row_tolerance else []) u).
  { destruct u as [|p u']; [reflexivity|]. cbn [length Nat.ltb Nat.leb].
    rewrite PointOrderingFacts.sort_grid_points_values.
    apply PointOrderingFacts.order_points_perm. }
  split; [symmetry; now apply Permutation_length|].
  split; [exact HP|]. split; [|reflexivity].
  apply (ordpairs_perm far_apart u); [apply far_apart_sym|now symmetry|].
  apply unique_centroids_far.
Qed.

(** *** From the markers to the windows *)

Lemma region_window_full img_w img_h tm_w tm_h (pt : point) :
  0 < tm_w -> 0 < tm_h ->
  0 <= px pt -> px pt + tm_w <= img_w ->
  0 <= py pt -> py pt + tm_h <= img_h ->
  region_window img_w img_h tm_w tm_h pt
  = Some (py pt, py pt + tm_h, px pt, px pt + tm_w).
Proof.
  intros Hw Hh Hx Hxw Hy Hyh. unfold region_window.
  rewrite !Z.max_r by lia. rewrite !Z.min_r by lia.
  replace (py pt >=? py pt + tm_h) with false
    by (symmetry; rewrite Z.geb_leb; apply Z.leb_gt; lia).
  replace (px pt >=? px pt + tm_w) with false
    by (symmetry; rewrite Z.geb_leb; apply Z.leb_gt; lia).
  reflexivity.
Qed.

(** X15. No marker found by [tm_task] is passed over by [ce_task]: when
    the score surface has the size of a template correlation, the window
    searched for each marker is the marker's whole template box, with the
    template size that [tm_task] returns. *)
Theorem markers_are_searched_in_full :
  forall (matchTemplate : Z -> Z -> Z -> Z -> list (list Q))
         (img_w img_h x y w h : Z) (tm_threshold : Q)
         (r : MarkerLocator.tm_result),
    (forall x' y' w' h',
        MarkerLocator.template_region img_w img_h x y w h
        = Some (x', y', w', h') ->
        MarkerLocator.surface_shape (matchTemplate x' y' w' h')
                                    (img_h - h' + 1) (img_w - w' + 1)) ->
    MarkerLocator.tm_task matchTemplate img_w img_h x y w h tm_threshold
    = Some r ->
    forall pt,
      In pt (MarkerLocator.final_points r) ->
      region_window img_w img_h (MarkerLocator.template_w r)
                    (MarkerLocator.template_h r) pt
      = Some (py pt, py pt + MarkerLocator.template_h r,
              px pt, px pt + MarkerLocator.template_w r).
Proof.
  intros mt W H x y w h thr r Hshape Ht pt Hpt.
  destruct (MarkerLocatorFacts.tm_task_inside mt W H x y w h thr r Hshape Ht)
    as (_ & Hw & Hh & Hin).
  destruct (Hin pt Hpt) as (Hx & Hxw & Hy & Hyh).
  apply region_window_full; assumption.
Qed.

Lemma markers_are_searched_in_full_witness :
  region_window 3 1 2 1 (1, 0)
  = Some (py (1, 0), py (1, 0) + 1, px (1, 0), px (1, 0) + 2).
Proof.
  apply (markers_are_searched_in_full (fun _ _ _ _ => [[0.7; 0.9]]%Q)
           3 1 0 0 2 1 0.5%Q
           (MarkerLocator.mk_tm_result 2 [(1, 0); (0, 0)] 2 1)).
  - intros x' y' w' h' E. vm_compute in E. injection E as <- <- <- <-.
    split; [reflexivity|]. repeat constructor.
  - reflexivity.
  - left. reflexivity.
Defined.

End CenterExtractorFacts.

(** ** CoordinateMapper *)

Module CoordinateMapperFacts.
Import PointOrdering CoordinateMapper.

Lemma read_rows_unparsable table :
  forall cp cr, In RowUnparsable table -> read_rows table cp cr = None.
Proof.
  induction table as [|row table IH]; intros cp cr H; [contradiction|].
  destruct row; simpl.
  - destruct H as [H|H]; [discriminate|]. now apply IH.
  - reflexivity.
  - destruct H as [H|H]; [discriminate|]. now apply IH.
Qed.

Lemma read_rows_parsable table :
  forall cp cr,
    ~ In RowUnparsable table ->
    read_rows table cp cr
    = Some (cp ++ control_pixels table, cr ++ control_reals table).
Proof.
  induction table as [|row table IH]; intros cp cr H; simpl.
  - now rewrite !app_nil_r.
  - destruct row; simpl.
    + apply IH. intros F. apply H. now right.
    + exfalso. apply H. now left.
    + rewrite IH by (intros F; apply H; now right).
      now rewrite <- !app_assoc.
Qed.

Lemma control_pixels_length table :
  length (control_pixels table) = valid_points table.
Proof.
  unfold valid_points, control_pixels.
  induction table as [|row table IH]; [reflexivity|].
  destruct row; simpl; auto.
Qed.

Lemma valid_points_unset table :
  In RowUnset table -> (valid_points table < length table)%nat.
Proof.
  unfold valid_points. induction table as [|row table IH]; [contradiction|].
  pose proof (filter_length_le is_valid table) as Hle.
  intros [->|H]; simpl; [lia|].
  specialize (IH H). destruct (is_valid row); simpl; lia.
Qed.

Lemma read_rows_some table :
  forall cp cr cp' cr',
    read_rows table cp cr = Some (cp', cr') ->
    cp' = cp ++ control_pixels table /\ cr' = cr ++ control_reals table.
Proof.
  induction table as [|row table IH]; intros cp cr cp' cr' H; simpl in *.
  - injection H as <- <-. now rewrite !app_nil_r.
  - destruct row; simpl.
    + now apply IH.
    + discriminate.
    + apply IH in H. rewrite <- !app_assoc in H. exact H.
Qed.

(** Fewer than three valid rows: a status message and no task. *)
Lemma too_few_control_points gat centers table :
  (valid_points table < 3)%nat ->
  exists e, run_coordinate_transformation gat (Some centers) table
            = StatusError e.
Proof.
  intros H. unfold run_coordinate_transformation.
  destruct (read_rows table [] []) as [[cp cr]|] eqn:E; [|eauto].
  apply read_rows_some in E. destruct E as [-> _]. cbn [app].
  rewrite control_pixels_length.
  replace (valid_points table <? 3)%nat with true
    by (symmetry; now apply Nat.ltb_lt).
  eauto.
Qed.

(** Three valid rows or more and no row that fails to parse: the task runs. *)
Lemma task_runs gat centers table :
  ~ In RowUnparsable table -> (3 <= valid_points table)%nat ->
  run_coordinate_transformation gat (Some centers) table
  = TaskDone (ct_task gat centers (control_pixels table) (control_reals table)).
Proof.
  intros Hp Hv. unfold run_coordinate_transformation.
  rewrite read_rows_parsable by exact Hp. cbn [app].
  rewrite control_pixels_length.
  replace (valid_points table <? 3)%nat with false
    by (symmetry; now apply Nat.ltb_ge).
  reflexivity.
Qed.

(** C8 (amended). The mapper reports an error and computes no transform
    when fewer than three control points are set (in particular when one of
    the three table rows is unset) or when a row cannot be parsed; it has no
    collinearity test of its own:
    with three set rows and a non-empty list of centres it fails exactly
    when the affine solver raises, and an empty list of centres gives an
    empty output without error, the solver not being called. *)
Theorem coordinate_mapper_failures :
  forall (getAffineTransform : list rpoint -> list rpoint -> option affine)
         (centers : list point) (table : list table_row),
    ((valid_points table < 3)%nat ->
     exists e, run_coordinate_transformation getAffineTransform
                 (Some centers) table = StatusError e) /\
    (length table = 3%nat -> In RowUnset table ->
     exists e, run_coordinate_transformation getAffineTransform
                 (Some centers) table = StatusError e) /\
    (In RowUnparsable table ->
     run_coordinate_transformation getAffineTransform (Some centers) table
     = StatusError RowParseFailure) /\
    (~ In RowUnparsable table -> (3 <= valid_points table)%nat ->
     run_coordinate_transformation getAffineTransform (Some []) table
     = TaskDone (CtCoords []) /\
     (centers <> [] ->
      run_coordinate_transformation getAffineTransform (Some centers) table
      = TaskDone
          match getAffineTransform (control_pixels table) (control_reals table)
          with
          | None => CtError
          | Some M => CtCoords (map (apply_affine M) centers)
          end)).
Proof.
  intros gat centers table. split; [|split; [|split]].
  - apply too_few_control_points.
  - intros Hlen Hin. apply too_few_control_points.
    apply valid_points_unset in Hin. lia.
  - intros Hin. unfold run_coordinate_transformation.
    now rewrite read_rows_unparsable.
  - intros Hp Hv. rewrite !task_runs by assumption. split; [reflexivity|].
    intros Hne. destruct centers; [contradiction|reflexivity].
Qed.

(** Counterexample to C8 as stated, for collinear control points: with the
    three pixel positions (0,0), (1,1), (2,2) and an empty list of centres
    the task returns the empty list and no error, whatever the solver
    does. *)
Lemma collinear_controls_counterexample :
  collinear (0, 0)%Q (1, 1)%Q (2, 2)%Q /\
  control_pixels collinear_table = [(0, 0); (1, 1); (2, 2)]%Q /\
  (forall getAffineTransform,
      run_coordinate_transformation getAffineTransform (Some [])
                                    collinear_table
      = TaskDone (CtCoords [])) /\
  run_coordinate_transformation (fun _ _ => None) (Some []) collinear_table
  <> TaskDone CtError.
Proof.
  split; [reflexivity|]. split; [reflexivity|]. split; [reflexivity|].
  discriminate.
Qed.

Lemma read_rows_no_unparsable table :
  forall cp cr r, read_rows table cp cr = Some r -> ~ In RowUnparsable table.
Proof.
  intros cp cr r H F. rewrite (read_rows_unparsable table cp cr F) in H.
  discriminate.
Qed.

Lemma filter_all_length {A : Type} (f : A -> bool) (l : list A) :
  (length l <= length (filter f l))%nat -> Forall (fun a => f a = true) l.
Proof.
  induction l as [|a l IH]; intros H; [constructor|].
  pose proof (filter_length_le f l) as Hle. simpl in H.
  destruct (f a) eqn:E; simpl in H; [|lia].
  constructor; [exact E|]. apply IH. lia.
Qed.

(** X16. Coordinates come only from a complete table: when the mapper
    returns real coordinates, no row failed to parse and at least three
    rows were valid (all three of a three-row table); there is one real
    coordinate per centre, and for a non-empty list of centres they are the
    images of the centres, in their order, under the matrix that the solver
    gave for the control points of the valid rows in table order. *)
Theorem coordinates_need_complete_table :
  forall (getAffineTransform : list rpoint -> list rpoint -> option affine)
         (centers : list point) (table : list table_row)
         (real_coords : list rpoint),
    run_coordinate_transformation getAffineTransform (Some centers) table
    = TaskDone (CtCoords real_coords) ->
    ~ In RowUnparsable table /\
    (3 <= valid_points table)%nat /\
    (length table = 3%nat -> Forall (fun row => is_valid row = true) table) /\
    length real_coords = length centers /\
    (centers <> [] ->
     exists M,
       getAffineTransform (control_pixels table) (control_reals table)
       = Some M /\
       real_coords = map (apply_affine M) centers).
Proof.
  intros gat centers table real H.
  unfold run_coordinate_transformation in H.
  destruct (read_rows table [] []) as [[cp cr]|] eqn:E; [|discriminate].
  pose proof (read_rows_no_unparsable _ _ _ _ E) as Hp.
  apply read_rows_some in E. destruct E as [-> ->]. cbn [app] in H.
  rewrite control_pixels_length in H.
  destruct (valid_points table <? 3)%nat eqn:Ev; [discriminate|].
  apply Nat.ltb_ge in Ev. injection H as H.
  split; [exact Hp|]. split; [exact Ev|]. split.
  { intros Hlen. apply filter_all_length. unfold valid_points in Ev. lia. }
  unfold ct_task in H. destruct centers as [|c centers].
  - injection H as <-. split; [reflexivity|]. intros F. now destruct F.
  - destruct (gat (control_pixels table) (control_reals table)) as [M|];
      [|discriminate].
    injection H as <-.
    split; [apply (length_map (apply_affine M) (c :: centers))|].
    intros _. now exists M.
Qed.

Lemma coordinates_need_complete_table_witness :
  ~ In RowUnparsable collinear_table /\
  (3 <= valid_points collinear_table)%nat /\
  (length collinear_table = 3%nat ->
   Forall (fun row => is_valid row = true) collinear_table) /\
  length (map (apply_affine ((1, 0, 0), (0, 1, 0))%Q) [(1, 2)])
  = length [(1, 2)] /\
  ([(1, 2)] <> [] ->
   exists M,
     (fun _ _ => Some ((1, 0, 0), (0, 1, 0))%Q)
       (control_pixels collinear_table) (control_reals collinear_table)
     = Some M /\
     map (apply_affine ((1, 0, 0), (0, 1, 0))%Q) [(1, 2)]
     = map (apply_affine M) [(1, 2)]).
Proof.
  apply (coordinates_need_complete_table
           (fun _ _ => Some ((1, 0, 0), (0, 1, 0))%Q) [(1, 2)]
           collinear_table
           (map (apply_affine ((1, 0, 0), (0, 1, 0))%Q) [(1, 2)])).
  reflexivity.
Defined.

End CoordinateMapperFacts.

(** ** ControlPointPicker *)

Module ControlPointPickerFacts.
Import ControlPointPicker.

Lemma stored_or_reset_length num_rows s :
  length (stored_or_reset num_rows s) = num_rows.
Proof.
  unfold stored_or_reset. destruct s as [l|]; [|apply repeat_length].
  destruct (length l =? num_rows)%nat eqn:E; [|apply repeat_length].
  now apply Nat.eqb_eq.
Qed.

Lemma stored_or_reset_kept l :
  stored_or_reset (length l) (Some l) = l.
Proof. unfold stored_or_reset. now rewrite Nat.eqb_refl. Qed.

Lemma first_unset_filled (a : list pixel) (k : nat) :
  first_unset (map Some a ++ repeat None k)
  = match k with O => None | S _ => Some (length a) end.
Proof.
  induction a as [|x a IH]; cbn [map app first_unset length].
  - destruct k; reflexivity.
  - rewrite IH. destruct k; reflexivity.
Qed.

Lemma set_row_filled (a : list pixel) (k : nat) p :
  set_row (length a) p (map Some a ++ repeat None (S k))
  = Some (map Some (a ++ [p]) ++ repeat None k).
Proof.
  induction a as [|x a IH]; cbn [map app set_row length repeat].
  - reflexivity.
  - cbn [repeat] in IH. rewrite IH. reflexivity.
Qed.

Lemma set_row_spec row v l :
  (row < length l)%nat ->
  exists l',
    set_row row v l = Some l' /\ length l' = length l /\
    nth_error l' row = Some (Some v) /\
    (forall i, i <> row -> nth_error l' i = nth_error l i).
Proof.
  revert row. induction l as [|c l IH]; intros row H; [simpl in H; lia|].
  destruct row as [|row]; cbn [set_row].
  - exists (Some v :: l). repeat split. intros [|i] Hi; [lia|reflexivity].
  - destruct (IH row) as (l' & E & Hlen & Hn & Ho); [simpl in H; lia|].
    rewrite E. exists (c :: l'). cbn [option_map length nth_error].
    split; [reflexivity|]. split; [now rewrite Hlen|]. split; [exact Hn|].
    intros [|i] Hi; [reflexivity|]. cbn [nth_error]. apply Ho. lia.
Qed.

Lemma first_unset_spec l :
  match first_unset l with
  | Some row => nth_error l row = Some None
  | None => forall i c, nth_error l i = Some c -> c <> None
  end.
Proof.
  induction l as [|[v|] l IH]; cbn [first_unset].
  - intros [|i] c H; discriminate.
  - destruct (first_unset l) as [row|]; cbn [option_map nth_error].
    + exact IH.
    + intros [|i] c H; cbn [nth_error] in H.
      * injection H as <-. discriminate.
      * eapply IH; eauto.
  - reflexivity.
Qed.

(** Clicks with no row selected on a list whose first cells are filled. *)
Lemma click_sequence_filled points :
  forall (a : list pixel) (k : nat),
    click_sequence (length a + k) (-1)
                   (Some (map Some a ++ repeat None k)) points
    = Some (Some (map Some (a ++ firstn k points)
                  ++ repeat None (k - length points)), -1).
Proof.
  induction points as [|p points IH]; intros a k; cbn [click_sequence].
  - rewrite firstn_nil, app_nil_r, Nat.sub_0_r. reflexivity.
  - unfold handle_point_clicked. cbn [Z.leb Z.compare].
    assert (E : stored_or_reset (length a + k)
                  (Some (map Some a ++ repeat None k))
                = map Some a ++ repeat None k).
    { rewrite <- (stored_or_reset_kept (map Some a ++ repeat None k)) at 2.
      now rewrite length_app, length_map, repeat_length. }
    rewrite E, first_unset_filled. destruct k as [|k].
    + cbn [repeat]. specialize (IH a 0%nat). cbn [repeat] in IH.
      rewrite IH. reflexivity.
    + rewrite set_row_filled. cbn [option_map].
      specialize (IH (a ++ [p]) k).
      rewrite length_app in IH. cbn [length] in IH.
      replace (length a + 1 + k)%nat with (length a + S k)%nat in IH by lia.
      rewrite IH. cbn [firstn length Nat.sub].
      now rewrite <- app_assoc.
Qed.

(** X17. Clicks made while no table row is selected fill the control
    points in table order: starting from an image without a stored list,
    after the clicks the list holds the first [num_rows] clicked positions
    in the order of the clicks, followed by the rows still unset; clicks
    beyond [num_rows] change nothing, and the handler never raises. *)
Theorem sequential_clicks_fill_in_order :
  forall (num_rows : nat) (p : pixel) (points : list pixel),
    click_sequence num_rows (-1) None (p :: points)
    = Some (Some (map Some (firstn num_rows (p :: points))
                  ++ repeat None (num_rows - length (p :: points))), -1).
Proof.
  intros n p points.
  assert (E : click_sequence n (-1) None (p :: points)
              = click_sequence n (-1) (Some (repeat None n)) (p :: points)).
  { cbn [click_sequence]. unfold handle_point_clicked.
    replace (stored_or_reset n (Some (repeat None n)))
      with (stored_or_reset n None); [reflexivity|].
    unfold stored_or_reset. rewrite repeat_length.
    now rewrite Nat.eqb_refl. }
  rewrite E. exact (click_sequence_filled (p :: points) [] n).
Qed.

(** X18. A click never changes the number of rows of the list. With no
    row selected it leaves every row that already holds a position as it
    is, and the selection as it was; with row [r] selected it puts the
    clicked position into row [r], leaves the other rows as they are and
    clears the selection. *)
Theorem click_changes_one_row :
  forall (num_rows : nat) (selected : Z) (s : store) (point : pixel),
    (selected < 0 ->
     exists l,
       handle_point_clicked num_rows selected s point = Some (l, selected) /\
       length l = num_rows /\
       forall i v,
         nth_error (stored_or_reset num_rows s) i = Some (Some v) ->
         nth_error l i = Some (Some v)) /\
    (0 <= selected < Z.of_nat num_rows ->
     exists l,
       handle_point_clicked num_rows selected s point = Some (l, -1) /\
       length l = num_rows /\
       nth_error l (Z.to_nat selected) = Some (Some point) /\
       forall i,
         i <> Z.to_nat selected ->
         nth_error l i = nth_error (stored_or_reset num_rows s) i).
Proof.
  intros n sel s p. unfold handle_point_clicked.
  pose proof (stored_or_reset_length n s) as Hlen.
  set (stored := stored_or_reset n s) in *. split.
  - intros Hsel.
    replace (0 <=? sel) with false by (symmetry; apply Z.leb_gt; lia).
    pose proof (first_unset_spec stored) as Hf.
    destruct (first_unset stored) as [row|].
    + assert (Hrow : (row < length stored)%nat)
        by (apply nth_error_Some; congruence).
      destruct (set_row_spec row p stored Hrow) as (l & E & Hl & _ & Ho).
      rewrite E. exists l. cbn [option_map].
      split; [reflexivity|]. split; [congruence|].
      intros i v Hi. rewrite Ho; [exact Hi|]. intros ->. congruence.
    + exists stored. auto.
  - intros Hsel.
    replace (0 <=? sel) with true by (symmetry; apply Z.leb_le; lia).
    assert (Hrow : (Z.to_nat sel < length stored)%nat) by lia.
    destruct (set_row_spec (Z.to_nat sel) p stored Hrow)
      as (l & E & Hl & Hn & Ho).
    rewrite E. exists l. cbn [option_map].
    split; [reflexivity|]. split; [congruence|]. split; [exact Hn|exact Ho].
Qed.

End ControlPointPickerFacts.

(** ** ResultStore *)

Module ResultStoreFacts.
Import PointOrdering ResultStore.

Lemma tm_task_count matchTemplate img_w img_h x y w h tm_threshold r :
  MarkerLocator.tm_task matchTemplate img_w img_h x y w h tm_threshold
  = Some r ->
  MarkerLocator.matched_regions_count r
  = length (MarkerLocator.final_points r).
Proof.
  unfold MarkerLocator.tm_task.
  destruct (MarkerLocator.template_region img_w img_h x y w h)
    as [[[[x' y'] w'] h']|]; [|discriminate].
  intros [= <-]. reflexivity.
Qed.

(** X19. After a template matching that succeeds, the centre extraction is
    started automatically exactly when at least one marker was found, and
    then [ce_task] receives the markers and the template size that
    [tm_task] returned; when no marker was found the extraction is not
    started and the centres stored earlier stay in place. *)
Theorem extraction_follows_matching :
  forall (matchTemplate : Z -> Z -> Z -> Z -> list (list Q))
         (img_w img_h x y w h : Z) (tm_threshold : Q)
         (r : MarkerLocator.tm_result) (current_results : results),
    MarkerLocator.tm_task matchTemplate img_w img_h x y w h tm_threshold
    = Some r ->
    (trigger_ce_after_tm (handle_tm_result (Some r) current_results)
     = RunExtraction <-> MarkerLocator.final_points r <> []) /\
    (MarkerLocator.final_points r <> [] ->
     run_circle_extraction (handle_tm_result (Some r) current_results)
     = (StartTask (MarkerLocator.final_points r)
                  (MarkerLocator.template_w r) (MarkerLocator.template_h r),
        handle_tm_result (Some r) current_results)) /\
    (MarkerLocator.final_points r = [] ->
     trigger_ce_after_tm (handle_tm_result (Some r) current_results)
     = SkipNoRegion /\
     pixel_coords (handle_tm_result (Some r) current_results)
     = pixel_coords current_results).
Proof.
  intros mt W H x y w h thr r s Ht. apply tm_task_count in Ht.
  unfold trigger_ce_after_tm, run_circle_extraction, handle_tm_result.
  cbn [tm_count final_points template_w template_h pixel_coords].
  rewrite Ht. destruct (MarkerLocator.final_points r) as [|p ps].
  - cbn [length]. split; [split; [discriminate|intros F; now destruct F]|].
    split; [intros F; now destruct F|]. intros _. split; reflexivity.
  - cbn [length]. split; [split; [discriminate|reflexivity]|].
    split; [reflexivity|discriminate].
Qed.

Lemma extraction_follows_matching_witness :
  let r := MarkerLocator.mk_tm_result 2 [(1, 0); (0, 0)] 2 1 in
  let s := mk_results None None None None None None in
  (trigger_ce_after_tm (handle_tm_result (Some r) s) = RunExtraction <->
   MarkerLocator.final_points r <> []) /\
  (MarkerLocator.final_points r <> [] ->
   run_circle_extraction (handle_tm_result (Some r) s)
   = (StartTask (MarkerLocator.final_points r)
                (MarkerLocator.template_w r) (MarkerLocator.template_h r),
      handle_tm_result (Some r) s)) /\
  (MarkerLocator.final_points r = [] ->
   trigger_ce_after_tm (handle_tm_result (Some r) s) = SkipNoRegion /\
   pixel_coords (handle_tm_result (Some r) s) = pixel_coords s).
Proof.
  apply (extraction_follows_matching (fun _ _ _ _ => [[0.7; 0.9]]%Q)
           3 1 0 0 2 1 0.5%Q).
  reflexivity.
Defined.

(** X20. A centre extraction asked for when the stored marker list is
    empty starts no task and removes the centres and the count stored
    earlier, leaving the template matching entries as they are; after it
    the coordinate transformation refuses to run, whatever the control
    point table holds. *)
Theorem empty_extraction_clears_centres :
  forall (getAffineTransform :
            list CoordinateMapper.rpoint -> list CoordinateMapper.rpoint ->
            option CoordinateMapper.affine)
         (table : list CoordinateMapper.table_row)
         (current_results : results),
    final_points current_results = Some [] ->
    template_w current_results <> None ->
    template_h current_results <> None ->
    fst (run_circle_extraction current_results) = NothingToExtract /\
    pixel_coords (snd (run_circle_extraction current_results)) = None /\
    ce_count (snd (run_circle_extraction current_results)) = None /\
    tm_count (snd (run_circle_extraction current_results))
    = tm_count current_results /\
    final_points (snd (run_circle_extraction current_results)) = Some [] /\
    CoordinateMapper.run_coordinate_transformation
      getAffineTransform
      (pixel_coords (snd (run_circle_extraction current_results))) table
    = CoordinateMapper.StatusError CoordinateMapper.NoExtractedCenters.
Proof.
  intros gat table s Hf Hw Hh. unfold run_circle_extraction. rewrite Hf.
  destruct (template_w s); [|contradiction].
  destruct (template_h s); [|contradiction].
  cbn [fst snd pixel_coords ce_count tm_count final_points].
  repeat split; auto.
Qed.

Lemma empty_extraction_clears_centres_witness :
  let s := mk_results (Some 0%nat) (Some []) (Some 20) (Some 10)
                      (Some 1%nat) (Some [(5, 5)]) in
  fst (run_circle_extraction s) = NothingToExtract /\
  pixel_coords (snd (run_circle_extraction s)) = None /\
  ce_count (snd (run_circle_extraction s)) = None /\
  tm_count (snd (run_circle_extraction s)) = tm_count s /\
  final_points (snd (run_circle_extraction s)) = Some [] /\
  CoordinateMapper.run_coordinate_transformation
    (fun _ _ => None)
    (pixel_coords (snd (run_circle_extraction s)))
    CoordinateMapper.collinear_table
  = CoordinateMapper.StatusError CoordinateMapper.NoExtractedCenters.
Proof.
  apply (empty_extraction_clears_centres
           (fun _ _ => None) CoordinateMapper.collinear_table
           (mk_results (Some 0%nat) (Some []) (Some 20) (Some 10)
                       (Some 1%nat) (Some [(5, 5)]))).
  - reflexivity.
  - discriminate.
  - discriminate.
Defined.

End ResultStoreFacts.

(** ** CorrespondenceTracker *)

Module CorrespondenceTrackerFacts.
Import CorrespondenceTracker.

(** Scenario D of the specification. *)
Example tracked_data_scenario_d :
  plot_task_tracked [[(0, 0); (10, 10)]; [(0.1, 0)]]%Q
  = [mk_row 0 1 (Some (0, 0)%Q); mk_row 1 1 (Some (10, 10)%Q);
     mk_row 0 2 (Some (0.1, 0)%Q); mk_row 1 2 None].
Proof. reflexivity. Qed.

Example tracked_data_three_periods :
  plot_task_tracked three_periods
  = [mk_row 0 1 (Some (0, 0)%Q); mk_row 1 1 (Some (10, 10)%Q);
     mk_row 0 2 (Some (0, 0)%Q); mk_row 1 2 None;
     mk_row 0 3 (Some (0, 0)%Q)].
Proof. reflexivity. Qed.

(** *** Dictionaries and the greedy pass *)

Lemma mem_in n s : mem n s = true <-> In n s.
Proof.
  unfold mem. rewrite existsb_exists. split.
  - intros (x & Hx & E). apply Nat.eqb_eq in E. now subst.
  - intros H. exists n. split; [exact H|apply Nat.eqb_refl].
Qed.

Lemma dict_set_fresh uid v d :
  ~ In uid (map fst d) -> dict_set uid v d = d ++ [(uid, v)].
Proof.
  induction d as [|[k w] d IH]; intros H; simpl; [reflexivity|].
  destruct (k =? uid)%nat eqn:E.
  - apply Nat.eqb_eq in E. exfalso. apply H. now left.
  - rewrite IH; [reflexivity|]. intros F. apply H. now right.
Qed.

Lemma dict_get_none uid d :
  dict_get uid d = None <-> ~ In uid (map fst d).
Proof.
  induction d as [|[k w] d IH]; simpl; [tauto|].
  destruct (k =? uid)%nat eqn:E.
  - apply Nat.eqb_eq in E. split; [discriminate|]. intros H. exfalso. auto.
  - apply Nat.eqb_neq in E. rewrite IH. tauto.
Qed.

Lemma potential_matches_uid refs cur m :
  In m (potential_matches refs cur) -> In (match_uid m) (map fst refs).
Proof.
  unfold potential_matches. intros H.
  apply in_flat_map in H. destruct H as (ref & Href & H).
  apply in_flat_map in H. destruct H as (c & _ & H).
  destruct (within_reach (snd ref) (snd c)); [|contradiction].
  destruct H as [<-|[]]. unfold match_uid. cbn [fst snd].
  apply in_map. exact Href.
Qed.

Lemma fold_commit_inv cur ms :
  forall st,
    current_matches_dict st = new_reference_points st ->
    map fst (new_reference_points st) = rev (matched_ref_ids st) ->
    NoDup (matched_ref_ids st) ->
    current_matches_dict (fold_left (commit cur) ms st)
    = new_reference_points (fold_left (commit cur) ms st) /\
    map fst (new_reference_points (fold_left (commit cur) ms st))
    = rev (matched_ref_ids (fold_left (commit cur) ms st)) /\
    NoDup (matched_ref_ids (fold_left (commit cur) ms st)) /\
    (forall uid,
        In uid (matched_ref_ids (fold_left (commit cur) ms st)) ->
        In uid (matched_ref_ids st) \/ exists m, In m ms /\ match_uid m = uid).
Proof.
  induction ms as [|m ms IH]; intros st Hd Hk Hn; cbn [fold_left].
  - repeat split; auto.
  - assert (Hst : current_matches_dict (commit cur st m)
                  = new_reference_points (commit cur st m) /\
                  map fst (new_reference_points (commit cur st m))
                  = rev (matched_ref_ids (commit cur st m)) /\
                  NoDup (matched_ref_ids (commit cur st m)) /\
                  (forall uid, In uid (matched_ref_ids (commit cur st m)) ->
                               In uid (matched_ref_ids st) \/ match_uid m = uid)).
    { unfold commit.
      destruct (mem (match_uid m) (matched_ref_ids st)) eqn:Em;
        cbn [negb andb]; [repeat split; auto|].
      destruct (mem (match_cur_idx m) (matched_cur_indices st));
        cbn [negb]; [repeat split; auto|].
      assert (Hfresh : ~ In (match_uid m) (matched_ref_ids st)).
      { intros F. apply mem_in in F. congruence. }
      cbn [current_matches_dict new_reference_points matched_ref_ids].
      rewrite Hd. split; [reflexivity|].
      rewrite dict_set_fresh
        by (rewrite Hk; intros F; apply Hfresh; now apply in_rev).
      rewrite map_app, Hk. cbn [map fst rev]. split; [reflexivity|].
      split; [now constructor|].
      intros uid [<-|H]; auto. }
    destruct Hst as (Hd' & Hk' & Hn' & Hin').
    destruct (IH (commit cur st m) Hd' Hk' Hn') as (H1 & H2 & H3 & H4).
    repeat split; auto.
    intros uid H. destruct (H4 uid H) as [H'|(m' & Hm' & E)].
    + destruct (Hin' uid H') as [H''|E]; [now left|].
      right. exists m. split; [now left|exact E].
    + right. exists m'. split; [now right|exact E].
Qed.

(** The outcome of one period: the two dictionaries agree, each id is
    committed once and is a reference id. *)
Lemma match_period_spec refs cur :
  current_matches_dict (match_period refs cur)
  = new_reference_points (match_period refs cur) /\
  NoDup (map fst (new_reference_points (match_period refs cur))) /\
  (forall uid,
      In uid (map fst (new_reference_points (match_period refs cur))) ->
      In uid (map fst refs)).
Proof.
  unfold match_period.
  destruct (fold_commit_inv cur
              (isort match_leb (potential_matches refs cur))
              (mk_match_state [] [] [] []) eq_refl eq_refl (NoDup_nil _))
    as (H1 & H2 & H3 & H4).
  split; [exact H1|]. split.
  - rewrite H2. apply NoDup_rev. exact H3.
  - intros uid H. rewrite H2 in H. apply in_rev in H.
    destruct (H4 uid H) as [[]|(m & Hm & <-)].
    apply isort_in in Hm. eapply potential_matches_uid; eauto.
Qed.

(** *** The rows of one period and of the remaining periods *)

Lemma in_period_rows t ids st row :
  In row (period_rows t ids st) <->
  exists uid, In uid ids /\
              row = mk_row uid (S t) (dict_get uid (current_matches_dict st)).
Proof.
  unfold period_rows. rewrite in_map_iff, Nat.add_1_r.
  split; intros (uid & H1 & H2); exists uid.
  - split; [exact H2|]. subst row.
    destruct (dict_get uid (current_matches_dict st)); reflexivity.
  - split; [|exact H1]. subst row.
    destruct (dict_get uid (current_matches_dict st)); reflexivity.
Qed.

Lemma track_from_spec periods :
  forall t refs,
    Forall (fun p => p <> []) periods ->
    NoDup (map fst refs) ->
    (forall row, In row (track_from t refs periods) ->
                 (t < time_step row <= t + length periods)%nat /\
                 In (unique_id row) (map fst refs)) /\
    (forall uid, has_row (track_from t refs periods) uid (S t) <->
                 periods <> [] /\ In uid (map fst refs)) /\
    (forall uid k, (1 <= k < length periods)%nat ->
                   (has_row (track_from t refs periods) uid (S t + k) <->
                    matched_at (track_from t refs periods) uid (t + k))) /\
    (forall uid s c c',
        In (mk_row uid s c) (track_from t refs periods) ->
        In (mk_row uid s c') (track_from t refs periods) -> c = c').
Proof.
  induction periods as [|cur rest IH]; intros t refs Hne Hnd.
  - cbn [track_from length]. split; [|split; [|split]].
    + intros row [].
    + intros uid. split; [intros [c []]|intros [H _]; now destruct H].
    + intros uid k Hk. lia.
    + intros uid s c c' [].
  - inversion Hne as [|? ? Hcur Hrest]; subst.
    cbn [track_from]. destruct cur as [|c0 cur']; [contradiction|].
    cbn [length Nat.eqb orb].
    destruct refs as [|r0 refs'].
    + (* the reference set is empty: the period is passed over *)
      cbn [length Nat.eqb map].
      destruct (IH (S t) [] Hrest (NoDup_nil _)) as (Ha & _).
      assert (Hempty : forall row, ~ In row (track_from (S t) [] rest))
        by (intros row H; now destruct (Ha row H)).
      split; [|split; [|split]].
      * intros row H. now apply Hempty in H.
      * intros uid. split; [|intros [_ []]].
        intros [c H]. now apply Hempty in H.
      * intros uid k _. split; intros [c H]; now apply Hempty in H.
      * intros uid s c c' H. now apply Hempty in H.
    + set (refs := r0 :: refs') in *.
      assert (Hlen : (length refs =? 0)%nat = false) by reflexivity.
      rewrite Hlen.
      set (st := match_period refs (c0 :: cur')).
      destruct (match_period_spec refs (c0 :: cur')) as (M1 & M2 & M3).
      fold st in M1, M2, M3.
      destruct (IH (S t) (new_reference_points st) Hrest M2)
        as (Ha & Hb & Hc & Hd).
      set (R := period_rows t (map fst refs) st).
      set (T' := track_from (S t) (new_reference_points st) rest) in *.
      assert (HR : forall uid s c,
                 In (mk_row uid s c) R <->
                 s = S t /\ In uid (map fst refs) /\
                 c = dict_get uid (current_matches_dict st)).
      { intros uid s c. unfold R. rewrite in_period_rows. split.
        - intros (u & Hu & E). injection E as -> -> ->. auto.
        - intros (-> & Hu & ->). exists uid. auto. }
      assert (HT' : forall uid s c,
                 In (mk_row uid s c) T' -> (S t < s)%nat).
      { intros uid s c H. apply Ha in H. cbn [time_step] in H. lia. }
      assert (Hkeys : forall uid,
                 In uid (map fst (new_reference_points st)) <->
                 In uid (map fst refs) /\
                 dict_get uid (current_matches_dict st) <> None).
      { intros uid. rewrite M1. split.
        - intros H. split; [now apply M3|]. now rewrite dict_get_none.
        - intros [_ H]. rewrite dict_get_none in H.
          destruct (in_dec Nat.eq_dec uid (map fst (new_reference_points st)));
            tauto. }
      split; [|split; [|split]].
      * intros row H. apply in_app_or in H. destruct H as [H|H].
        -- destruct row as [uid s c]. apply HR in H.
           destruct H as (-> & Hu & _). cbn [time_step unique_id length].
           split; [lia|exact Hu].
        -- destruct (Ha row H) as [Ht Hu]. cbn [length].
           split; [lia|]. now apply M3.
      * intros uid. split.
        -- intros [c H]. split; [discriminate|].
           apply in_app_or in H. destruct H as [H|H].
           ++ now apply HR in H.
           ++ apply HT' in H. lia.
        -- intros [_ Hu].
           exists (dict_get uid (current_matches_dict st)).
           apply in_or_app. left. apply HR. auto.
      * intros uid k Hk. cbn [length] in Hk.
        assert (E1 : has_row (R ++ T') uid (S t + k)
                     <-> has_row T' uid (S t + k)).
        { split; intros [c H]; exists c.
          - apply in_app_or in H. destruct H as [H|H]; [|exact H].
            apply HR in H. lia.
          - apply in_or_app. now right. }
        rewrite E1. destruct (Nat.eq_dec k 1) as [->|Hk1].
        -- replace (S t + 1)%nat with (S (S t)) by lia.
           rewrite Hb, Hkeys. split.
           ++ intros (_ & Hu & Hg).
              destruct (dict_get uid (current_matches_dict st)) as [p|] eqn:E;
                [|contradiction].
              exists p. apply in_or_app. left. apply HR.
              repeat split; auto. lia.
           ++ intros [p H]. apply in_app_or in H. destruct H as [H|H].
              ** apply HR in H. destruct H as (_ & Hu & E).
                 split; [|split; [exact Hu|congruence]].
                 destruct rest; [cbn [length] in Hk; lia|discriminate].
              ** apply HT' in H. lia.
        -- replace (S t + k)%nat with (S (S t) + (k - 1))%nat by lia.
           rewrite (Hc uid (k - 1)%nat) by lia.
           replace (S t + (k - 1))%nat with (t + k)%nat by lia.
           split; intros [p H]; exists p.
           ++ apply in_or_app. now right.
           ++ apply in_app_or in H. destruct H as [H|H]; [|exact H].
              apply HR in H. lia.
      * intros uid s c c' H H'.
        apply in_app_or in H, H'. destruct H as [H|H], H' as [H'|H'].
        -- apply HR in H, H'. destruct H as (_ & _ & ->), H' as (_ & _ & ->).
           reflexivity.
        -- apply HR in H. apply HT' in H'. lia.
        -- apply HR in H'. apply HT' in H. lia.
        -- eapply Hd; eauto.
Qed.

(** *** A matched coordinate is within reach of the previous one *)

Lemma dict_set_in uid v d k w :
  In (k, w) (dict_set uid v d) -> (k = uid /\ w = v) \/ In (k, w) d.
Proof.
  induction d as [|[k' w'] d IH]; simpl.
  - intros [E|[]]. injection E as <- <-. now left.
  - destruct (k' =? uid)%nat eqn:E.
    + apply Nat.eqb_eq in E. subst k'. intros [H|H].
      * injection H as <- <-. now left.
      * right. now right.
    + intros [H|H]; [right; now left|].
      destruct (IH H) as [H'|H']; [now left|right; now right].
Qed.

Lemma dict_get_some_in uid d p : dict_get uid d = Some p -> In (uid, p) d.
Proof.
  induction d as [|[k w] d IH]; simpl; [discriminate|].
  destruct (k =? uid)%nat eqn:E.
  - apply Nat.eqb_eq in E. subst k. intros [= ->]. now left.
  - intros H. right. now apply IH.
Qed.

Lemma dict_get_in_nodup uid d p :
  NoDup (map fst d) -> In (uid, p) d -> dict_get uid d = Some p.
Proof.
  induction d as [|[k w] d IH]; simpl; [contradiction|].
  intros Hnd H. inversion Hnd as [|? ? Hk Hnd']; subst.
  destruct H as [H|H].
  - injection H as -> ->. now rewrite Nat.eqb_refl.
  - destruct (k =? uid)%nat eqn:E; [|now apply IH].
    apply Nat.eqb_eq in E. subst k. exfalso. apply Hk.
    apply in_map_iff. now exists (uid, p).
Qed.

Lemma in_combine_seq {A : Type} (d : A) (l : list A) :
  forall k i v,
    In (i, v) (combine (seq k (length l)) l) ->
    (k <= i < k + length l)%nat /\ nth (i - k) l d = v.
Proof.
  induction l as [|a l IH]; intros k i v H; [contradiction|].
  cbn [length seq combine] in H. destruct H as [H|H].
  - injection H as <- <-. rewrite Nat.sub_diag. cbn [length nth].
    split; [lia|reflexivity].
  - apply IH in H. destruct H as [Hi Hv]. cbn [length]. split; [lia|].
    replace (i - k)%nat with (S (i - S k)) by lia. exact Hv.
Qed.

Lemma potential_matches_reach refs cur m :
  In m (potential_matches refs cur) ->
  exists q,
    In (match_uid m, q) refs /\
    (match_cur_idx m < length cur)%nat /\
    within_reach q (nth (match_cur_idx m) cur (0, 0)%Q) = true.
Proof.
  unfold potential_matches. intros H.
  apply in_flat_map in H. destruct H as ([uid q] & Href & H).
  apply in_flat_map in H. destruct H as ([i v] & Hc & H).
  cbn [fst snd] in H.
  destruct (within_reach q v) eqn:E; [|contradiction].
  destruct H as [<-|[]]. unfold match_uid, match_cur_idx. cbn [fst snd].
  apply (in_combine_seq ((0, 0)%Q : rpoint)) in Hc. destruct Hc as [Hi Hv].
  rewrite Nat.sub_0_r in Hv. subst v. exists q.
  split; [exact Href|]. split; [lia|exact E].
Qed.

Lemma fold_commit_values cur ms uid p :
  forall st,
    In (uid, p) (new_reference_points (fold_left (commit cur) ms st)) ->
    In (uid, p) (new_reference_points st) \/
    exists m, In m ms /\ match_uid m = uid /\
              p = nth (match_cur_idx m) cur (0, 0)%Q.
Proof.
  induction ms as [|m ms IH]; intros st H; cbn [fold_left] in H; [now left|].
  destruct (IH _ H) as [H'|(m' & Hm' & E)].
  - unfold commit in H'.
    destruct (negb (mem (match_uid m) (matched_ref_ids st))
              && negb (mem (match_cur_idx m) (matched_cur_indices st)));
      [|now left].
    cbn [new_reference_points] in H'. apply dict_set_in in H'.
    destruct H' as [[-> ->]|H']; [|now left].
    right. exists m. repeat split. now left.
  - right. exists m'. split; [now right|exact E].
Qed.

Lemma match_period_values refs cur uid p :
  In (uid, p) (new_reference_points (match_period refs cur)) ->
  exists q, In (uid, q) refs /\ within_reach q p = true /\ In p cur.
Proof.
  unfold match_period. intros H.
  apply fold_commit_values in H. destruct H as [[]|(m & Hm & <- & ->)].
  apply isort_in in Hm. apply potential_matches_reach in Hm.
  destruct Hm as (q & Hq & Hi & Hr).
  exists q. repeat split; auto. now apply nth_In.
Qed.

Lemma track_from_reach periods :
  forall t refs,
    Forall (fun p => p <> []) periods ->
    NoDup (map fst refs) ->
    forall uid k p,
      In (mk_row uid (S t + k) (Some p)) (track_from t refs periods) ->
      exists q,
        (k = 0%nat /\ In (uid, q) refs \/
         k <> 0%nat /\
         In (mk_row uid (t + k) (Some q)) (track_from t refs periods)) /\
        within_reach q p = true /\ In p (nth k periods []).
Proof.
  induction periods as [|cur rest IH]; intros t refs Hne Hnd uid k p H;
    [contradiction|].
  inversion Hne as [|? ? Hcur Hrest]; subst.
  cbn [track_from] in *. destruct cur as [|c0 cur']; [contradiction|].
  cbn [length Nat.eqb orb] in *.
  destruct refs as [|r0 refs'].
  - cbn [length Nat.eqb] in H.
    destruct (track_from_spec rest (S t) [] Hrest (NoDup_nil _)) as (Ha & _).
    apply Ha in H. now destruct H.
  - set (refs := r0 :: refs') in *.
    assert (Hlen : (length refs =? 0)%nat = false) by reflexivity.
    rewrite Hlen in *.
    set (st := match_period refs (c0 :: cur')) in *.
    destruct (match_period_spec refs (c0 :: cur')) as (M1 & M2 & M3).
    fold st in M1, M2, M3.
    destruct (track_from_spec rest (S t) (new_reference_points st) Hrest M2)
      as (Ha & _).
    apply in_app_or in H. destruct H as [H|H].
    + apply in_period_rows in H. destruct H as (u & Hu & E).
      injection E as <- Ek Ec. assert (k = 0%nat) as -> by lia.
      symmetry in Ec. apply dict_get_some_in in Ec. rewrite M1 in Ec.
      apply match_period_values in Ec. destruct Ec as (q & Hq & Hr & Hp).
      exists q. cbn [nth]. auto.
    + pose proof (Ha _ H) as [Ht _]. cbn [time_step] in Ht.
      destruct k as [|k]; [lia|].
      replace (S t + S k)%nat with (S (S t) + k)%nat in H by lia.
      destruct (IH (S t) (new_reference_points st) Hrest M2 uid k p H)
        as (q & Hq & Hr & Hp).
      exists q. cbn [nth]. split; [|auto]. right. split; [discriminate|].
      apply in_or_app. destruct Hq as [[-> Hq]|[Hk Hq]].
      * left. apply in_period_rows. exists uid. split.
        -- apply M3. apply in_map_iff. now exists (uid, q).
        -- rewrite M1, (dict_get_in_nodup uid _ q M2 Hq).
           f_equal. lia.
      * right. replace (t + S k)%nat with (S t + k)%nat by lia. exact Hq.
Qed.

(** *** The whole table *)

Lemma map_fst_combine {A B : Type} (l1 : list A) (l2 : list B) :
  length l1 = length l2 -> map fst (combine l1 l2) = l1.
Proof.
  revert l2. induction l1 as [|a l1 IH]; intros [|b l2] H; simpl in *;
    try discriminate; [reflexivity|].
  f_equal. apply IH. lia.
Qed.

Lemma initial_coords_ids first :
  map fst (initial_coords first) = seq 0 (length first).
Proof. apply map_fst_combine. apply length_seq. Qed.

Lemma periods_data_nonempty all :
  Forall (fun p : list rpoint => p <> []) (periods_data all).
Proof.
  unfold periods_data. apply Forall_forall. intros p Hp.
  apply filter_In in Hp. destruct Hp as [_ Hp]. now destruct p.
Qed.

(** What the table of [tracked_data] satisfies when no period is empty. *)
Lemma tracked_data_spec periods :
  Forall (fun p : list rpoint => p <> []) periods ->
  (forall uid, matched_at (tracked_data periods) uid 1 <->
               (uid < length (hd [] periods))%nat) /\
  (forall uid t, (1 <= t < length periods)%nat ->
                 (has_row (tracked_data periods) uid (S t) <->
                  matched_at (tracked_data periods) uid t)) /\
  (forall row, In row (tracked_data periods) ->
               (unique_id row < length (hd [] periods))%nat /\
               (1 <= time_step row <= length periods)%nat) /\
  (forall uid s c c',
      In (mk_row uid s c) (tracked_data periods) ->
      In (mk_row uid s c') (tracked_data periods) -> c = c').
Proof.
  intros Hne. destruct periods as [|first rest].
  - cbn [tracked_data hd length]. split; [|split; [|split]].
    + intros uid. split; [intros [p []]|lia].
    + intros uid t Ht. lia.
    + intros row [].
    + intros uid s c c' [].
  - inversion Hne as [|? ? _ Hrest]; subst.
    cbn [tracked_data hd length].
    set (ic := initial_coords first).
    assert (Hids : map fst ic = seq 0 (length first))
      by apply initial_coords_ids.
    assert (Hnd : NoDup (map fst ic)) by (rewrite Hids; apply seq_NoDup).
    destruct (track_from_spec rest 1 ic Hrest Hnd) as (Ha & Hb & Hc & Hd).
    set (R1 := map (fun e : nat * rpoint => mk_row (fst e) 1 (Some (snd e))) ic).
    set (T' := track_from 1 ic rest) in *.
    assert (HR1 : forall uid s c,
               In (mk_row uid s c) R1 <->
               s = 1%nat /\ exists p, c = Some p /\ In (uid, p) ic).
    { intros uid s c. unfold R1. rewrite in_map_iff. split.
      - intros ([u p] & E & H). injection E as E1 E2 E3.
        cbn [fst snd] in *. subst. eauto.
      - intros (-> & p & -> & H). now exists (uid, p). }
    assert (HT' : forall uid s c, In (mk_row uid s c) T' -> (1 < s)%nat).
    { intros uid s c H. apply Ha in H. cbn [time_step] in H. lia. }
    assert (Hin : forall uid,
               In uid (map fst ic) <-> (uid < length first)%nat).
    { intros uid. rewrite Hids, in_seq. lia. }
    assert (Hm1 : forall uid,
               matched_at (R1 ++ T') uid 1 <-> In uid (map fst ic)).
    { intros uid. split.
      - intros [p H]. apply in_app_or in H. destruct H as [H|H].
        + apply HR1 in H. destruct H as (_ & q & _ & H).
          apply in_map_iff. now exists (uid, q).
        + apply HT' in H. lia.
      - intros H. apply in_map_iff in H. destruct H as ([u p] & <- & H).
        exists p. apply in_or_app. left. apply HR1. eauto. }
    assert (Hdet : forall uid p q, In (uid, p) ic -> In (uid, q) ic -> p = q).
    { clear -Hnd. induction ic as [|[u v] ic IH]; intros uid p q Hp Hq;
        [contradiction|].
      cbn [map fst] in Hnd. inversion Hnd as [|? ? Hu Hnd']; subst.
      destruct Hp as [Ep|Hp], Hq as [Eq|Hq].
      - congruence.
      - injection Ep as -> ->. exfalso. apply Hu.
        apply in_map_iff. now exists (uid, q).
      - injection Eq as -> ->. exfalso. apply Hu.
        apply in_map_iff. now exists (uid, p).
      - eapply IH; eauto. }
    split; [|split; [|split]].
    + intros uid. now rewrite Hm1, Hin.
    + intros uid t Ht.
      assert (E1 : has_row (R1 ++ T') uid (S t) <-> has_row T' uid (S t)).
      { split; intros [c H]; exists c.
        - apply in_app_or in H. destruct H as [H|H]; [|exact H].
          apply HR1 in H. lia.
        - apply in_or_app. now right. }
      rewrite E1. destruct (Nat.eq_dec t 1) as [->|Ht1].
      * rewrite Hb, Hm1. split; [tauto|]. intros H. split; [|exact H].
        destruct rest; [cbn [length] in Ht; lia|discriminate].
      * replace (S t) with (2 + (t - 1))%nat by lia.
        rewrite (Hc uid (t - 1)%nat) by lia.
        replace (1 + (t - 1))%nat with t by lia.
        split; intros [p H]; exists p.
        -- apply in_or_app. now right.
        -- apply in_app_or in H. destruct H as [H|H]; [|exact H].
           apply HR1 in H. lia.
    + intros row H. apply in_app_or in H. destruct H as [H|H].
      * destruct row as [uid s c]. apply HR1 in H.
        destruct H as (-> & p & _ & H). cbn [unique_id time_step].
        split; [|lia]. apply Hin, in_map_iff. now exists (uid, p).
      * destruct (Ha row H) as [Ht Hu]. split; [now apply Hin|lia].
    + intros uid s c c' H H'.
      apply in_app_or in H, H'. destruct H as [H|H], H' as [H'|H'].
      * apply HR1 in H, H'.
        destruct H as (_ & p & -> & H), H' as (_ & q & -> & H').
        f_equal. eapply Hdet; eauto.
      * apply HR1 in H. apply HT' in H'. lia.
      * apply HR1 in H'. apply HT' in H. lia.
      * eapply Hd; eauto.
Qed.

(** A coordinate recorded after the first period is a point of its period
    within [MAX_MATCHING_DISTANCE] of the id's coordinate one period
    earlier. *)
Lemma tracked_data_reach periods :
  Forall (fun p : list rpoint => p <> []) periods ->
  forall uid t p,
    (1 <= t)%nat ->
    In (mk_row uid (S t) (Some p)) (tracked_data periods) ->
    exists q,
      In (mk_row uid t (Some q)) (tracked_data periods) /\
      within_reach q p = true /\ In p (nth t periods []).
Proof.
  intros Hne uid t p Ht H. destruct periods as [|first rest]; [contradiction|].
  inversion Hne as [|? ? _ Hrest]; subst.
  cbn [tracked_data] in *.
  assert (Hnd : NoDup (map fst (initial_coords first)))
    by (rewrite initial_coords_ids; apply seq_NoDup).
  apply in_app_or in H. destruct H as [H|H].
  - apply in_map_iff in H. destruct H as (e & E & _). injection E as _ E _. lia.
  - replace (S t) with (2 + (t - 1))%nat in H by lia.
    destruct (track_from_reach rest 1 (initial_coords first) Hrest Hnd
                uid (t - 1)%nat p H) as (q & Hq & Hr & Hp).
    exists q. split; [|split; [exact Hr|]].
    + apply in_or_app. destruct Hq as [[Ek Hq]|[Ek Hq]].
      * left. apply in_map_iff. exists (uid, q). split; [|exact Hq].
        cbn [fst snd]. f_equal. lia.
      * right. replace t with (1 + (t - 1))%nat at 1 by lia. exact Hq.
    + replace t with (S (t - 1)) by lia. exact Hp.
Qed.

(** Once an id has not been matched in a period it has no later row. *)
Lemma no_row_after_unmatched periods uid s :
  Forall (fun p : list rpoint => p <> []) periods ->
  (1 <= s)%nat ->
  ~ matched_at (tracked_data periods) uid s ->
  forall j, ~ has_row (tracked_data periods) uid (s + S j).
Proof.
  intros Hne Hs Hnot.
  destruct (tracked_data_spec periods Hne) as (_ & H2 & H3 & _).
  assert (Hstep : forall u, (1 <= u)%nat ->
            ~ matched_at (tracked_data periods) uid u ->
            ~ has_row (tracked_data periods) uid (S u)).
  { intros u Hu Hm Hr.
    destruct (Nat.lt_ge_cases u (length periods)) as [Hlt|Hge].
    - apply Hm. apply H2; [lia|exact Hr].
    - destruct Hr as [c Hr]. apply H3 in Hr. cbn [time_step] in Hr. lia. }
  induction j as [|j IH].
  - rewrite Nat.add_1_r. now apply Hstep.
  - replace (s + S (S j))%nat with (S (s + S j)) by lia.
    apply Hstep; [lia|]. intros [p H]. apply IH. now exists (Some p).
Qed.

(** C1 (amended). Ids are assigned in the first period only. In a later
    period the table has a row for an id exactly when the id was matched
    in the period before (every first-period id for period 2); that row
    holds either NaN or a point of the period within d_max of the id's
    previous coordinate; and after a period in which an id went unmatched
    the table has no further row for that id. *)
Theorem tracked_rows_follow_reference_set :
  forall all_real_coords : list (list rpoint),
    (forall uid,
        matched_at (plot_task_tracked all_real_coords) uid 1 <->
        (uid < length (hd [] (periods_data all_real_coords)))%nat) /\
    (forall uid t,
        (1 <= t < length (periods_data all_real_coords))%nat ->
        (has_row (plot_task_tracked all_real_coords) uid (S t) <->
         matched_at (plot_task_tracked all_real_coords) uid t)) /\
    (forall uid s s',
        missing_at (plot_task_tracked all_real_coords) uid s ->
        (s < s')%nat ->
        ~ has_row (plot_task_tracked all_real_coords) uid s') /\
    (forall row,
        In row (plot_task_tracked all_real_coords) ->
        (unique_id row < length (hd [] (periods_data all_real_coords)))%nat /\
        (1 <= time_step row <= length (periods_data all_real_coords))%nat) /\
    (forall uid s c c',
        In (mk_row uid s c) (plot_task_tracked all_real_coords) ->
        In (mk_row uid s c') (plot_task_tracked all_real_coords) -> c = c') /\
    (forall uid t p,
        (1 <= t)%nat ->
        In (mk_row uid (S t) (Some p)) (plot_task_tracked all_real_coords) ->
        exists q,
          In (mk_row uid t (Some q)) (plot_task_tracked all_real_coords) /\
          within_reach q p = true /\
          In p (nth t (periods_data all_real_coords) [])).
Proof.
  intros all. unfold plot_task_tracked.
  pose proof (periods_data_nonempty all) as Hne.
  destruct (tracked_data_spec (periods_data all) Hne) as (H1 & H2 & H3 & H4).
  split; [exact H1|]. split; [exact H2|].
  split; [|split; [exact H3|split; [exact H4|now apply tracked_data_reach]]].
  intros uid s s' Hmiss Hlt.
  replace s' with (s + S (s' - s - 1))%nat by lia.
  apply no_row_after_unmatched; [exact Hne| |].
  - apply H3 in Hmiss. cbn [time_step] in Hmiss. lia.
  - intros [p Hp]. specialize (H4 uid s None (Some p) Hmiss Hp). discriminate.
Qed.

(** Counterexample to C1 as stated: id 1 is unmatched in period 2, where
    its row holds NaN, and the table has no row for it in period 3. *)
Lemma id_dropped_after_unmatched_counterexample :
  missing_at (plot_task_tracked three_periods) 1 2 /\
  ~ has_row (plot_task_tracked three_periods) 1 3.
Proof.
  split.
  - unfold missing_at. rewrite tracked_data_three_periods. simpl. tauto.
  - intros [c H]. rewrite tracked_data_three_periods in H. simpl in H.
    repeat (destruct H as [H|H]; [discriminate|]). exact H.
Qed.

(** *** The order of the potential matches *)

Lemma match_leb_spec a b :
  match_leb a b = true <->
  (fst (fst a) < fst (fst b))%Q \/
  ((fst (fst a) == fst (fst b))%Q /\
   ((match_uid a < match_uid b)%nat \/
    (match_uid a = match_uid b /\
     (match_cur_idx a <= match_cur_idx b)%nat))).
Proof.
  unfold match_leb.
  destruct (Qeq_bool (fst (fst a)) (fst (fst b))) eqn:E.
  - apply Qeq_bool_iff in E.
    destruct (match_uid a =? match_uid b)%nat eqn:E2.
    + apply Nat.eqb_eq in E2. rewrite Nat.leb_le. split.
      * intros H. right. split; [exact E|]. right. split; assumption.
      * intros [H|[_ [H|[_ H]]]]; [exfalso; lra|lia|exact H].
    + apply Nat.eqb_neq in E2. rewrite Nat.ltb_lt. split.
      * intros H. right. split; [exact E|]. now left.
      * intros [H|[_ [H|[H _]]]]; [exfalso; lra|exact H|contradiction].
  - apply Qeq_bool_neq in E. rewrite Qle_bool_iff. split.
    + intros H. left. apply Qle_lt_or_eq in H.
      destruct H as [H|H]; [exact H|contradiction].
    + intros [H|[H _]]; [now apply Qlt_le_weak|contradiction].
Qed.

Lemma match_leb_total a b : match_leb a b = true \/ match_leb b a = true.
Proof.
  rewrite !match_leb_spec.
  destruct (Q_dec (fst (fst a)) (fst (fst b))) as [[H|H]|H]; [tauto|tauto|].
  destruct (Nat.lt_total (match_uid a) (match_uid b)) as [Hu|[Hu|Hu]].
  - left. right. tauto.
  - destruct (Nat.le_ge_cases (match_cur_idx a) (match_cur_idx b)).
    + left. right. tauto.
    + right. right. split; [now symmetry|]. right. split; [now symmetry|lia].
  - right. right. split; [now symmetry|]. now left.
Qed.

Lemma match_leb_trans a b c :
  match_leb a b = true -> match_leb b c = true -> match_leb a c = true.
Proof.
  rewrite !match_leb_spec.
  intros [H1|[H1 H1']] [H2|[H2 H2']].
  - left. lra.
  - left. lra.
  - left. lra.
  - right. split; [lra|]. lia.
Qed.

Lemma match_leb_dist a b :
  match_leb a b = true -> (fst (fst a) <= fst (fst b))%Q.
Proof. rewrite match_leb_spec. intros [H|[H _]]; lra. Qed.

Lemma potential_matches_sorted refs cur :
  StronglySorted (le_of match_leb)
                 (isort match_leb (potential_matches refs cur)).
Proof. apply isort_sorted; [apply match_leb_total|apply match_leb_trans]. Qed.

Lemma combine_seq_in {A : Type} (d : A) (l : list A) :
  forall k i, (i < length l)%nat ->
              In ((k + i)%nat, nth i l d) (combine (seq k (length l)) l).
Proof.
  induction l as [|a l IH]; intros k i Hi; [simpl in Hi; lia|].
  cbn [length seq combine]. destruct i as [|i].
  - left. now rewrite Nat.add_0_r.
  - right. cbn [nth]. replace (k + S i)%nat with (S k + i)%nat by lia.
    apply IH. simpl in Hi. lia.
Qed.

(** The entries of [potential_matches]: one for each reference point and
    each index of the period within reach, with their distance. *)
Lemma in_potential_matches refs cur m :
  In m (potential_matches refs cur) <->
  exists q,
    In (match_uid m, q) refs /\
    (match_cur_idx m < length cur)%nat /\
    within_reach q (nth (match_cur_idx m) cur (0, 0)%Q) = true /\
    fst (fst m) = dist_sq q (nth (match_cur_idx m) cur (0, 0)%Q).
Proof.
  unfold potential_matches. split.
  - intros H.
    apply in_flat_map in H. destruct H as ([uid q] & Href & H).
    apply in_flat_map in H. destruct H as ([i v] & Hc & H).
    cbn [fst snd] in H.
    destruct (within_reach q v) eqn:E; [|contradiction].
    destruct H as [<-|[]]. unfold match_uid, match_cur_idx. cbn [fst snd].
    apply (in_combine_seq ((0, 0)%Q : rpoint)) in Hc. destruct Hc as [Hi Hv].
    rewrite Nat.sub_0_r in Hv. subst v. exists q.
    split; [exact Href|]. split; [lia|]. split; [exact E|reflexivity].
  - intros (q & Href & Hi & Hr & Hd).
    destruct m as [[d uid] i]. unfold match_uid, match_cur_idx in *.
    cbn [fst snd] in *. subst d.
    apply in_flat_map. exists (uid, q). split; [exact Href|].
    apply in_flat_map. exists (i, nth i cur ((0, 0)%Q : rpoint)). split.
    + apply (combine_seq_in ((0, 0)%Q : rpoint) cur 0%nat i Hi).
    + cbn [fst snd]. rewrite Hr. now left.
Qed.

(** *** The greedy pass is a one-to-one matching *)

Lemma dict_get_set uid v d k :
  dict_get k (dict_set uid v d)
  = if (uid =? k)%nat then Some v else dict_get k d.
Proof.
  induction d as [|[k' w] d IH]; simpl.
  - destruct (uid =? k)%nat; reflexivity.
  - destruct (k' =? uid)%nat eqn:E.
    + apply Nat.eqb_eq in E. subst k'. simpl.
      destruct (uid =? k)%nat; reflexivity.
    + simpl. rewrite IH. destruct (k' =? k)%nat eqn:E2; [|reflexivity].
      apply Nat.eqb_eq in E2. subst k'. rewrite Nat.eqb_sym, E. reflexivity.
Qed.

Lemma in_combine_left {A B : Type} (l : list A) :
  forall (l' : list B) a,
    length l = length l' -> In a l -> exists b, In (a, b) (combine l l').
Proof.
  induction l as [|x l IH]; intros [|y l'] a Hlen Ha; simpl in *;
    try contradiction; try discriminate.
  destruct Ha as [->|Ha]; [exists y; now left|].
  destruct (IH l' a) as [b Hb]; [lia|exact Ha|]. exists b. now right.
Qed.

Lemma in_combine_right {A B : Type} (l : list A) :
  forall (l' : list B) b,
    length l = length l' -> In b l' -> exists a, In (a, b) (combine l l').
Proof.
  induction l as [|x l IH]; intros [|y l'] b Hlen Hb; simpl in *;
    try contradiction; try discriminate.
  destruct Hb as [->|Hb]; [exists x; now left|].
  destruct (IH l' b) as [a Ha]; [lia|exact Hb|]. exists a. now right.
Qed.

Lemma match_inv_empty cur : match_inv cur (mk_match_state [] [] [] []).
Proof.
  unfold match_inv, matched_pairs. cbn.
  split; [constructor|]. split; [constructor|]. split; [reflexivity|].
  split; [intros uid idx []|]. intros uid H. now apply H.
Qed.

(** One iteration of the greedy loop. *)
Lemma commit_inv cur st m :
  match_inv cur st ->
  match_inv cur (commit cur st m) /\
  incl (matched_ref_ids st) (matched_ref_ids (commit cur st m)) /\
  incl (matched_cur_indices st) (matched_cur_indices (commit cur st m)) /\
  incl (matched_pairs st) (matched_pairs (commit cur st m)) /\
  (In (match_uid m) (matched_ref_ids (commit cur st m)) \/
   In (match_cur_idx m) (matched_cur_indices (commit cur st m))) /\
  (forall pr, In pr (matched_pairs (commit cur st m)) ->
              In pr (matched_pairs st) \/
              pr = (match_uid m, match_cur_idx m)).
Proof.
  intros (I1 & I2 & I3 & I4 & I5). unfold commit.
  destruct (mem (match_uid m) (matched_ref_ids st)) eqn:Eu; cbn [negb andb].
  { apply mem_in in Eu. unfold match_inv.
    repeat split; auto using incl_refl. }
  destruct (mem (match_cur_idx m) (matched_cur_indices st)) eqn:Ei;
    cbn [negb].
  { apply mem_in in Ei. unfold match_inv.
    repeat split; auto using incl_refl. }
  assert (Hu : ~ In (match_uid m) (matched_ref_ids st))
    by (intros F; apply mem_in in F; congruence).
  assert (Hi : ~ In (match_cur_idx m) (matched_cur_indices st))
    by (intros F; apply mem_in in F; congruence).
  unfold match_inv, matched_pairs in *.
  cbn [matched_ref_ids matched_cur_indices current_matches_dict combine].
  split; [|split; [|split; [|split; [|split]]]].
  - split; [now constructor|]. split; [now constructor|].
    split; [cbn [length]; now rewrite I3|]. split.
    + intros uid idx [E|H]; rewrite dict_get_set.
      * injection E as <- <-. now rewrite Nat.eqb_refl.
      * destruct (match_uid m =? uid)%nat eqn:E; [|now apply I4].
        apply Nat.eqb_eq in E. subst uid. exfalso. apply Hu.
        eapply in_combine_l; eauto.
    + intros uid. rewrite dict_get_set.
      destruct (match_uid m =? uid)%nat eqn:E.
      * apply Nat.eqb_eq in E. now left.
      * intros H. right. now apply I5.
  - apply incl_tl, incl_refl.
  - apply incl_tl, incl_refl.
  - apply incl_tl, incl_refl.
  - left. now left.
  - intros pr [<-|H]; [now right|now left].
Qed.

(** The whole loop over a list of potential matches. *)
Lemma fold_commit_match cur ms :
  forall st,
    match_inv cur st ->
    match_inv cur (fold_left (commit cur) ms st) /\
    incl (matched_ref_ids st)
         (matched_ref_ids (fold_left (commit cur) ms st)) /\
    incl (matched_cur_indices st)
         (matched_cur_indices (fold_left (commit cur) ms st)) /\
    incl (matched_pairs st) (matched_pairs (fold_left (commit cur) ms st)) /\
    (forall m, In m ms ->
               In (match_uid m)
                  (matched_ref_ids (fold_left (commit cur) ms st)) \/
               In (match_cur_idx m)
                  (matched_cur_indices (fold_left (commit cur) ms st))) /\
    (forall pr, In pr (matched_pairs (fold_left (commit cur) ms st)) ->
                In pr (matched_pairs st) \/
                exists m, In m ms /\ pr = (match_uid m, match_cur_idx m)).
Proof.
  induction ms as [|m ms IH]; intros st Hinv; cbn [fold_left].
  - split; [exact Hinv|]. repeat split; auto using incl_refl.
    intros m [].
  - destruct (commit_inv cur st m Hinv) as (C1 & C2 & C3 & C4 & C5 & C6).
    destruct (IH _ C1) as (F1 & F2 & F3 & F4 & F5 & F6).
    split; [exact F1|]. split; [eapply incl_tran; eauto|].
    split; [eapply incl_tran; eauto|]. split; [eapply incl_tran; eauto|].
    split.
    + intros m' [<-|H]; [|now apply F5].
      destruct C5 as [H|H]; [left; now apply F2|right; now apply F3].
    + intros pr H. destruct (F6 pr H) as [H'|(m' & Hm' & E)].
      * destruct (C6 pr H') as [H''|E]; [now left|].
        right. exists m. split; [now left|exact E].
      * right. exists m'. split; [now right|exact E].
Qed.

Lemma match_period_inv refs cur :
  match_inv cur (match_period refs cur) /\
  (forall m, In m (potential_matches refs cur) ->
             In (match_uid m) (matched_ref_ids (match_period refs cur)) \/
             In (match_cur_idx m)
                (matched_cur_indices (match_period refs cur))) /\
  (forall pr, In pr (matched_pairs (match_period refs cur)) ->
              exists m, In m (potential_matches refs cur) /\
                        pr = (match_uid m, match_cur_idx m)).
Proof.
  unfold match_period.
  destruct (fold_commit_match cur
              (isort match_leb (potential_matches refs cur))
              _ (match_inv_empty cur)) as (F1 & _ & _ & _ & F5 & F6).
  split; [exact F1|]. split.
  - intros m Hm. apply F5. now apply isort_in.
  - intros pr H. destruct (F6 pr H) as [[]|(m & Hm & E)].
    exists m. split; [now apply isort_in in Hm|exact E].
Qed.

(** X21. The greedy pass of one period is a one-to-one matching: an id is
    committed at most once and an index of the period at most once; each
    committed id is a reference id whose previous coordinate is within
    [MAX_MATCHING_DISTANCE] of the point it receives; the ids that receive
    a coordinate are exactly the committed ones; and their number exceeds
    neither the number of reference points nor that of the period's
    points. *)
Theorem greedy_matching_one_to_one :
  forall (reference_points : list (nat * rpoint))
         (current_coords : list rpoint),
    NoDup (matched_ref_ids (match_period reference_points current_coords)) /\
    NoDup (matched_cur_indices
             (match_period reference_points current_coords)) /\
    length (matched_ref_ids (match_period reference_points current_coords))
    = length (matched_cur_indices
                (match_period reference_points current_coords)) /\
    (forall uid idx,
        In (uid, idx)
           (matched_pairs (match_period reference_points current_coords)) ->
        (idx < length current_coords)%nat /\
        dict_get uid (current_matches_dict
                        (match_period reference_points current_coords))
        = Some (nth idx current_coords (0, 0)%Q) /\
        exists q,
          In (uid, q) reference_points /\
          within_reach q (nth idx current_coords (0, 0)%Q) = true) /\
    (forall uid,
        dict_get uid (current_matches_dict
                        (match_period reference_points current_coords))
        <> None <->
        In uid (matched_ref_ids
                  (match_period reference_points current_coords))) /\
    (length (matched_ref_ids (match_period reference_points current_coords))
     <= length reference_points)%nat /\
    (length (matched_ref_ids (match_period reference_points current_coords))
     <= length current_coords)%nat.
Proof.
  intros refs cur.
  destruct (match_period_inv refs cur) as ((I1 & I2 & I3 & I4 & I5) & _ & P).
  set (st := match_period refs cur) in *.
  assert (Hpair : forall uid idx,
             In (uid, idx) (matched_pairs st) ->
             (idx < length cur)%nat /\
             exists q, In (uid, q) refs /\
                       within_reach q (nth idx cur (0, 0)%Q) = true).
  { intros uid idx H. destruct (P _ H) as (m & Hm & E).
    injection E as -> ->. apply in_potential_matches in Hm.
    destruct Hm as (q & Hq & Hi & Hr & _). split; [exact Hi|]. now exists q. }
  split; [exact I1|]. split; [exact I2|]. split; [exact I3|].
  split; [|split; [|split]].
  - intros uid idx H. destruct (Hpair uid idx H) as [Hi Hq].
    split; [exact Hi|]. split; [now apply I4|exact Hq].
  - intros uid. split; [apply I5|]. intros H.
    destruct (in_combine_left _ (matched_cur_indices st) uid I3 H)
      as [idx Hidx].
    fold (matched_pairs st) in Hidx. rewrite (I4 uid idx Hidx). discriminate.
  - rewrite <- (length_map fst refs). apply NoDup_incl_length; [exact I1|].
    intros uid H.
    destruct (in_combine_left _ (matched_cur_indices st) uid I3 H)
      as [idx Hidx].
    destruct (Hpair uid idx Hidx) as (_ & q & Hq & _).
    apply in_map_iff. now exists (uid, q).
  - rewrite I3, <- (length_seq (length cur) 0).
    apply NoDup_incl_length; [exact I2|].
    intros idx H.
    destruct (in_combine_right (matched_ref_ids st) _ idx I3 H)
      as [uid Hidx].
    destruct (Hpair uid idx Hidx) as (Hi & _).
    apply in_seq. lia.
Qed.

(** X22. The greedy pass is maximal, and a point goes to the nearer
    claimant: when a reference point is left without a match although a
    point of the period lies within [MAX_MATCHING_DISTANCE] of it, that
    point was given to another id whose reference coordinate is at least
    as close to it. *)
Theorem unmatched_only_when_taken :
  forall (reference_points : list (nat * rpoint))
         (current_coords : list rpoint)
         (uid : nat) (q : rpoint) (idx : nat),
    In (uid, q) reference_points ->
    (idx < length current_coords)%nat ->
    within_reach q (nth idx current_coords (0, 0)%Q) = true ->
    dict_get uid (current_matches_dict
                    (match_period reference_points current_coords)) = None ->
    exists uid' q',
      uid' <> uid /\ In (uid', q') reference_points /\
      dict_get uid' (current_matches_dict
                       (match_period reference_points current_coords))
      = Some (nth idx current_coords (0, 0)%Q) /\
      (dist_sq q' (nth idx current_coords (0, 0)%Q)
       <= dist_sq q (nth idx current_coords (0, 0)%Q))%Q.
Proof.
  intros refs cur uid q idx Href Hidx Hreach Hnone.
  set (p := nth idx cur ((0, 0)%Q : rpoint)) in *.
  set (m := (dist_sq q p, uid, idx) : potential_match).
  assert (Hm : In m (potential_matches refs cur)).
  { apply in_potential_matches. exists q. unfold m, match_uid, match_cur_idx.
    cbn [fst snd]. auto. }
  pose proof (potential_matches_sorted refs cur) as Hsorted.
  assert (Hm' : In m (isort match_leb (potential_matches refs cur)))
    by now apply isort_in.
  apply in_split in Hm'. destruct Hm' as (l1 & l2 & El).
  unfold match_period in Hnone. rewrite El in Hsorted, Hnone.
  rewrite fold_left_app in Hnone. cbn [fold_left] in Hnone.
  set (st1 := fold_left (commit cur) l1 (mk_match_state [] [] [] [])) in *.
  destruct (fold_commit_match cur l1 _ (match_inv_empty cur))
    as (A1 & _ & _ & _ & _ & A6). fold st1 in A1, A6.
  destruct (commit_inv cur st1 m A1) as (C1 & C2 & C3 & C4 & _ & _).
  destruct (fold_commit_match cur l2 _ C1) as (F1 & F2 & F3 & F4 & _ & _).
  set (st := fold_left (commit cur) l2 (commit cur st1 m)) in *.
  destruct F1 as (I1 & I2 & I3 & I4 & I5).
  assert (Huid : ~ In uid (matched_ref_ids st)).
  { intros H.
    destruct (in_combine_left _ (matched_cur_indices st) uid I3 H)
      as [i Hi].
    fold (matched_pairs st) in Hi. rewrite (I4 uid i Hi) in Hnone.
    discriminate. }
  assert (Htaken : In idx (matched_cur_indices st1)).
  { destruct (mem idx (matched_cur_indices st1)) eqn:E;
      [now apply mem_in in E|].
    exfalso. apply Huid. apply F2. unfold commit.
    change (match_uid m) with uid. change (match_cur_idx m) with idx.
    rewrite E.
    destruct (mem uid (matched_ref_ids st1)) eqn:E'; cbn [negb andb].
    - apply mem_in in E'. exact E'.
    - now left. }
  destruct A1 as (_ & _ & B3 & _ & _).
  destruct (in_combine_right (matched_ref_ids st1) _ idx B3 Htaken)
    as [uid' Hpair].
  fold (matched_pairs st1) in Hpair.
  destruct (A6 _ Hpair) as [[]|(m' & Hm1 & E)].
  injection E as Eu Ei.
  assert (Hle : match_leb m' m = true).
  { apply strongly_sorted_app in Hsorted.
    destruct Hsorted as (_ & _ & H). apply H; [exact Hm1|now left]. }
  apply match_leb_dist in Hle.
  assert (Hm1' : In m' (potential_matches refs cur)).
  { apply (isort_in match_leb). rewrite El. apply in_or_app. now left. }
  apply in_potential_matches in Hm1'.
  destruct Hm1' as (q' & Hq' & _ & _ & Hd).
  rewrite <- Eu in Hq'. rewrite <- Ei in Hd. rewrite Hd in Hle.
  assert (Hfinal : In (uid', idx) (matched_pairs st))
    by (apply F4, C4; exact Hpair).
  exists uid', q'. split; [|split; [exact Hq'|split]].
  - intros ->. apply Huid. eapply in_combine_l. exact Hfinal.
  - unfold match_period. rewrite El, fold_left_app. cbn [fold_left].
    apply (I4 uid' idx Hfinal).
  - exact Hle.
Qed.

Lemma unmatched_only_when_taken_witness :
  exists uid' q',
    uid' <> 1%nat /\
    In (uid', q') [(0%nat, (0, 0)%Q); (1%nat, (0.2, 0)%Q)] /\
    dict_get uid' (current_matches_dict
                     (match_period [(0%nat, (0, 0)%Q); (1%nat, (0.2, 0)%Q)]
                                   [(0.05, 0)%Q]))
    = Some (nth 0 [(0.05, 0)%Q] (0, 0)%Q) /\
    (dist_sq q' (nth 0 [(0.05, 0)%Q] (0, 0)%Q)
     <= dist_sq (0.2, 0)%Q (nth 0 [(0.05, 0)%Q] (0, 0)%Q))%Q.
Proof.
  apply (unmatched_only_when_taken
           [(0%nat, (0, 0)%Q); (1%nat, (0.2, 0)%Q)] [(0.05, 0)%Q]
           1%nat (0.2, 0)%Q 0%nat).
  - simpl. tauto.
  - simpl. lia.
  - reflexivity.
  - reflexivity.
Defined.

(** X23. The closest pair is always matched: when a reference point and a
    point of the period are within [MAX_MATCHING_DISTANCE] of each other
    and closer than every other pair of a reference point and a point of
    the period, the reference id receives that point. *)
Theorem closest_pair_is_matched :
  forall (reference_points : list (nat * rpoint))
         (current_coords : list rpoint)
         (uid : nat) (q : rpoint) (idx : nat),
    In (uid, q) reference_points ->
    (idx < length current_coords)%nat ->
    within_reach q (nth idx current_coords (0, 0)%Q) = true ->
    (forall uid' q' idx',
        In (uid', q') reference_points ->
        (idx' < length current_coords)%nat ->
        (uid', idx') <> (uid, idx) ->
        (dist_sq q (nth idx current_coords (0, 0)%Q)
         < dist_sq q' (nth idx' current_coords (0, 0)%Q))%Q) ->
    dict_get uid (current_matches_dict
                    (match_period reference_points current_coords))
    = Some (nth idx current_coords (0, 0)%Q).
Proof.
  intros refs cur uid q idx Href Hidx Hreach Hbest.
  set (m := (dist_sq q (nth idx cur ((0, 0)%Q : rpoint)), uid, idx)
            : potential_match).
  assert (Hm : In m (potential_matches refs cur)).
  { apply in_potential_matches. exists q. unfold m, match_uid, match_cur_idx.
    cbn [fst snd]. auto. }
  pose proof (potential_matches_sorted refs cur) as Hsorted.
  assert (Hm' : In m (isort match_leb (potential_matches refs cur)))
    by now apply isort_in.
  unfold match_period.
  destruct (isort match_leb (potential_matches refs cur)) as [|h t] eqn:El;
    [contradiction|].
  assert (Hh : In h (potential_matches refs cur))
    by (apply (isort_in match_leb); rewrite El; now left).
  apply in_potential_matches in Hh.
  destruct Hh as (q' & Hq' & Hi' & _ & Hd).
  assert (Hle : (fst (fst h) <= fst (fst m))%Q).
  { destruct Hm' as [->|Hm']; [apply Qle_refl|].
    apply match_leb_dist. apply StronglySorted_inv in Hsorted.
    destruct Hsorted as [_ Hall]. rewrite Forall_forall in Hall.
    now apply Hall. }
  assert (E : (match_uid h, match_cur_idx h) = (uid, idx)).
  { destruct (Nat.eq_dec (match_uid h) uid) as [Eu|Eu];
      [destruct (Nat.eq_dec (match_cur_idx h) idx) as [Ei|Ei]|].
    - now rewrite Eu, Ei.
    - exfalso. specialize (Hbest _ _ _ Hq' Hi').
      rewrite Hd in Hle. unfold m in Hle. cbn [fst] in Hle.
      assert (F : (match_uid h, match_cur_idx h) <> (uid, idx))
        by congruence.
      specialize (Hbest F). lra.
    - exfalso. specialize (Hbest _ _ _ Hq' Hi').
      rewrite Hd in Hle. unfold m in Hle. cbn [fst] in Hle.
      assert (F : (match_uid h, match_cur_idx h) <> (uid, idx))
        by congruence.
      specialize (Hbest F). lra. }
  injection E as Eu Ei. cbn [fold_left].
  set (st1 := commit cur (mk_match_state [] [] [] []) h).
  destruct (commit_inv cur _ h (match_inv_empty cur))
    as (C1 & _ & _ & _ & _ & _). fold st1 in C1.
  destruct (fold_commit_match cur t st1 C1)
    as ((_ & _ & _ & I4 & _) & _ & _ & F4 & _ & _).
  apply I4. apply F4. unfold st1, commit, matched_pairs. cbn.
  left. now rewrite Eu, Ei.
Qed.

Lemma closest_pair_is_matched_witness :
  dict_get 0 (current_matches_dict
                (match_period [(0%nat, (0, 0)%Q); (1%nat, (10, 10)%Q)]
                              [(0.1, 0)%Q]))
  = Some (nth 0 [(0.1, 0)%Q] (0, 0)%Q).
Proof.
  apply (closest_pair_is_matched
           [(0%nat, (0, 0)%Q); (1%nat, (10, 10)%Q)] [(0.1, 0)%Q]
           0%nat (0, 0)%Q 0%nat).
  - simpl. tauto.
  - simpl. lia.
  - reflexivity.
  - intros uid' q' idx' Hin Hidx Hneq. simpl in Hidx.
    assert (idx' = 0%nat) as -> by lia.
    destruct Hin as [E|[E|[]]]; injection E as <- <-.
    + congruence.
    + reflexivity.
Defined.

(** *** The height change of a tracked point *)

Lemma within_reach_dy q p :
  within_reach q p = true ->
  (- MAX_MATCHING_DISTANCE <= snd p - snd q <= MAX_MATCHING_DISTANCE)%Q.
Proof.
  unfold within_reach, dist_sq, MAX_MATCHING_DISTANCE.
  rewrite Qle_bool_iff. intros H.
  set (dx := (fst q - fst p)%Q) in *. set (dy := (snd q - snd p)%Q) in *.
  assert (E : (snd p - snd q == - dy)%Q) by (unfold dy; ring).
  rewrite E. split; nra.
Qed.

(** A recorded coordinate of time step [t + 1] differs in y from the id's
    coordinate of time step 1 by at most [t] times the matching distance. *)
Lemma tracked_data_drift periods :
  Forall (fun p : list rpoint => p <> []) periods ->
  forall t uid p,
    In (mk_row uid (S t) (Some p)) (tracked_data periods) ->
    exists p1,
      In (mk_row uid 1 (Some p1)) (tracked_data periods) /\
      (- (inject_Z (Z.of_nat t) * MAX_MATCHING_DISTANCE)
       <= snd p - snd p1
       <= inject_Z (Z.of_nat t) * MAX_MATCHING_DISTANCE)%Q.
Proof.
  intros Hne. induction t as [|t IH]; intros uid p H.
  - exists p. split; [exact H|].
    change (inject_Z (Z.of_nat 0)) with 0%Q. split; lra.
  - destruct (tracked_data_reach periods Hne uid (S t) p) as (q & Hq & Hr & _);
      [lia|exact H|].
    destruct (IH uid q Hq) as (p1 & Hp1 & Hb).
    apply within_reach_dy in Hr.
    exists p1. split; [exact Hp1|].
    rewrite Nat2Z.inj_succ. unfold Z.succ. rewrite inject_Z_plus.
    change (inject_Z 1) with 1%Q.
    unfold MAX_MATCHING_DISTANCE in *. split; lra.
Qed.

Lemma initial_y_row T uid p1 :
  (forall u s c c', In (mk_row u s c) T -> In (mk_row u s c') T -> c = c') ->
  In (mk_row uid 1 (Some p1)) T ->
  initial_y T uid = Some (snd p1).
Proof.
  intros Hdet Hin. unfold initial_y.
  destruct (find _ T) as [r|] eqn:E.
  - apply find_some in E. destruct E as [Hr E].
    apply andb_prop in E. destruct E as [E1 E2].
    apply Nat.eqb_eq in E1, E2. destruct r as [u s c]. cbn in E1, E2. subst.
    rewrite (Hdet _ _ _ _ Hr Hin). reflexivity.
  - apply find_none with (x := mk_row uid 1 (Some p1)) in E; [|exact Hin].
    cbn in E. rewrite Nat.eqb_refl in E. discriminate.
Qed.

(** X24. The height change [delta_y] of a row that holds a coordinate is
    a number (not NaN), and at time step [t] it is at most
    [(t - 1) * MAX_MATCHING_DISTANCE] in absolute value; in particular it
    is zero in the first period. *)
Theorem delta_y_bounded :
  forall (all_real_coords : list (list rpoint)) (row : tracked_row)
         (p : rpoint),
    In row (plot_task_tracked all_real_coords) ->
    coord row = Some p ->
    exists d,
      delta_y (plot_task_tracked all_real_coords) row = Some d /\
      (- (inject_Z (Z.of_nat (time_step row - 1)) * MAX_MATCHING_DISTANCE)
       <= d
       <= inject_Z (Z.of_nat (time_step row - 1)) * MAX_MATCHING_DISTANCE)%Q.
Proof.
  intros all [uid s c] p Hin Hc. cbn [coord] in Hc. subst c.
  unfold plot_task_tracked in *.
  pose proof (periods_data_nonempty all) as Hne.
  destruct (tracked_data_spec _ Hne) as (_ & _ & H3 & H4).
  pose proof (H3 _ Hin) as [_ Hs]. cbn [time_step] in Hs |- *.
  replace s with (S (s - 1)) in Hin by lia.
  destruct (tracked_data_drift _ Hne _ _ _ Hin) as (p1 & Hp1 & Hb).
  unfold delta_y. cbn [coord unique_id].
  rewrite (initial_y_row _ uid p1 H4 Hp1).
  exists (snd p - snd p1)%Q. split; [reflexivity|exact Hb].
Qed.

Lemma delta_y_bounded_witness :
  exists d,
    delta_y (plot_task_tracked [[(0, 0); (10, 10)]; [(0.1, 0.3)]]%Q)
            (mk_row 0 2 (Some (0.1, 0.3)%Q)) = Some d /\
    (- (inject_Z (Z.of_nat (2 - 1)) * MAX_MATCHING_DISTANCE)
     <= d
     <= inject_Z (Z.of_nat (2 - 1)) * MAX_MATCHING_DISTANCE)%Q.
Proof.
  apply (delta_y_bounded [[(0, 0); (10, 10)]; [(0.1, 0.3)]]%Q
                         (mk_row 0 2 (Some (0.1, 0.3)%Q)) (0.1, 0.3)%Q).
  - right. right. left. reflexivity.
  - reflexivity.
Defined.

End CorrespondenceTrackerFacts.
